(** * sctl: secrets encrypted by KMS, exported to a child process

    A shallow embedding of [main.go]: the secret records, the slice
    surgery of [addSecret] and [rmSecret], the store document on disk,
    and the four command actions ([add], [rm], [list], [run]).

    Conventions.
    - A Go [string] and a Go [[]byte] are both byte sequences: [string].
    - A Go slice is a backing array together with a length ([slice]).
    - Code that can end the process returns an [outcome]: a value,
      [log.Fatal] (exit status 1) or a run-time panic (exit status 2).
      The lines [log.Printf] writes are not part of the model.
    - The file system is reduced to the one path the program touches,
      [.scuttle.json] ([Disk]).
    - What the program only calls is a parameter: the pure library
      functions ([strings.ToUpper], base64, shlex) are the fields of the
      class [Libraries]; the KMS endpoint, the inherited environment and
      the process launcher are the fields of the class [Host]. *)

From Stdlib Require Import ZArith Lia Ascii.
From stdpp Require Import base list strings sorting.

Open Scope string_scope.
Open Scope list_scope.
Open Scope nat_scope.

(** ** Data model *)

(** [[]byte]; [nil] and the empty slice are both [""] (they print alike). *)
Definition bytes := string.

(** [time.Time], as an instant; the zero value is [0]. *)
Definition Time := Z.

(** [type Secret struct { Name, Cyphertext string; Created time.Time }] *)
Record Secret := mkSecret {
  Name : string;
  Cyphertext : string;
  Created : Time
}.

(** [Secret{}], the zero value. *)
Definition Secret_zero : Secret :=
  {| Name := ""; Cyphertext := ""; Created := 0%Z |}.

#[global] Instance Secret_inhabited : Inhabited Secret := populate Secret_zero.

#[global] Instance Secret_eq_dec : EqDecision Secret.
Proof. solve_decision. Defined.

(** Go [error] values. [*exec.ExitError] is kept apart because it carries
    the exit status of a child that ran. *)
Inductive error :=
| ExitError (status : Z)
| ErrorString (msg : string).

(** Run-time panics the slice code can raise. *)
Inductive runtime_error :=
| IndexOutOfRange (index : Z) (length : nat).

(** ** Outcomes *)

Inductive outcome (A : Type) :=
| Return (a : A)
| Fatal (e : error)
| Panic (p : runtime_error).
Arguments Return {A} a.
Arguments Fatal {A} e.
Arguments Panic {A} p.

#[global] Instance outcome_ret : MRet outcome := @Return.
#[global] Instance outcome_bind : MBind outcome := λ A B f m,
  match m with
  | Return a => f a
  | Fatal e => Fatal e
  | Panic p => Panic p
  end.

(** The status the process ends with: [main] returning is 0, [log.Fatal]
    is [os.Exit(1)], an unrecovered panic is 2. *)
Definition exit_status {A} (o : outcome A) : Z :=
  match o with
  | Return _ => 0
  | Fatal _ => 1
  | Panic _ => 2
  end%Z.

(** ** Slices *)

(** A slice of secrets: [array] is the backing array (its length is the
    capacity), [len] the slice length. *)
Record slice := mkSlice {
  array : list Secret;
  len : nat
}.

(** The elements a slice holds, [s[0] .. s[len(s)-1]]. *)
Definition elems (s : slice) : list Secret := take (len s) (array s).

(** A freshly decoded slice holding [l]. *)
Definition slice_of (l : list Secret) : slice :=
  {| array := l; len := length l |}.

(** [append(s, x)], read back as a list of elements. *)
Definition append (s : slice) (x : Secret) : list Secret := elems s ++ [x].

(** The body both loops run on a match:
<<
    secrets[index] = secrets[len(secrets)-1]
    secrets[len(secrets)-1] = Secret{}
    secrets = secrets[:len(secrets)-1]
>>
    The right-hand side is evaluated first and panics on index -1; the
    store to [secrets[index]] panics when [index] is not below the
    current length. *)
Definition remove_at (index : nat) (secrets : slice) : outcome slice :=
  match len secrets with
  | 0 => Panic (IndexOutOfRange (-1) 0)
  | S last =>
      let moved := array secrets !!! last in
      if decide (index < len secrets) then
        Return {| array := <[last := Secret_zero]> (<[index := moved]> (array secrets));
                  len := last |}
      else Panic (IndexOutOfRange (Z.of_nat index) (len secrets))
  end.

(** [for index, element := range secrets { if element.Name == name { ... } }]
    from position [index] on, [todo] iterations left. The range expression
    is evaluated once, so the number of iterations is fixed on entry, while
    [element] is read from the shared backing array at each iteration. *)
Fixpoint range_from (name : string) (todo index : nat) (secrets : slice)
  : outcome slice :=
  match todo with
  | 0 => Return secrets
  | S todo' =>
      let element := array secrets !!! index in
      if decide (Name element = name) then
        secrets' ← remove_at index secrets;
        range_from name todo' (S index) secrets'
      else range_from name todo' (S index) secrets
  end.

(** The whole loop, as [addSecret] and [rmSecret] both contain it. *)
Definition remove_named (name : string) (secrets : slice) : outcome slice :=
  range_from name (len secrets) 0 secrets.

(** ** The store document *)

(** The text of a file, seen through [encoding/json]: [Records data] is a
    text [json.Unmarshal] decodes into [data] (what [json.MarshalIndent]
    writes for [data]); [Malformed e] is a text it rejects with [e]. *)
Inductive Document :=
| Records (data : list Secret)
| Malformed (e : error).

Definition json_MarshalIndent (data : list Secret) : Document := Records data.

Definition json_Unmarshal (file : Document) : error + list Secret :=
  match file with
  | Records data => inr data
  | Malformed e => inl e
  end.

(** A file: its text and its permission bits. *)
Record File := mkFile {
  content : Document;
  perm : Z
}.

(** What the program can see of the file system: the file at
    [.scuttle.json] ([None] when there is no such file), the process
    umask, and the error a write would meet (read-only directory, full
    disk), if any. *)
Record Disk := mkDisk {
  scuttle_json : option File;
  umask : Z;
  write_error : option error
}.

(** [ioutil.ReadFile(".scuttle.json")] *)
Definition ioutil_ReadFile (d : Disk) : error + Document :=
  match scuttle_json d with
  | Some f => inr (content f)
  | None => inl (ErrorString "open .scuttle.json: no such file or directory")
  end.

(** [ioutil.WriteFile(".scuttle.json", data, mode)]: a missing file is
    created with [mode] less the umask; an existing one is truncated and
    keeps its permissions. *)
Definition ioutil_WriteFile (d : Disk) (data : Document) (mode : Z)
  : error + Disk :=
  match write_error d with
  | Some e => inl e
  | None =>
      let f := match scuttle_json d with
               | Some old => {| content := data; perm := perm old |}
               | None => {| content := data; perm := Z.ldiff mode (umask d) |}
               end in
      inr {| scuttle_json := Some f; umask := umask d; write_error := None |}
  end.

(** [func readSecrets() []Secret]. Any read error gives the empty list;
    the read error modelled is the missing file. *)
Definition readSecrets (d : Disk) : outcome (list Secret) :=
  match ioutil_ReadFile d with
  | inl _ => Return []
  | inr file =>
      match json_Unmarshal file with
      | inl err => Fatal err
      | inr data => Return data
      end
  end.

(** An octal literal of three digits, as Go writes file modes. *)
Definition octal (u g o : Z) : Z := (u * 64 + g * 8 + o)%Z.

(** [mode := int(0660)] *)
Definition mode : Z := octal 6 6 0.

(** [func writeSecrets(data []Secret)] *)
Definition writeSecrets (d : Disk) (data : list Secret) : outcome Disk :=
  let jsonData := json_MarshalIndent data in
  match ioutil_WriteFile d jsonData mode with
  | inl err => Fatal err
  | inr d' => Return d'
  end.

(** [func addSecret(to_add Secret)] *)
Definition addSecret (d : Disk) (to_add : Secret) : outcome Disk :=
  secrets ← readSecrets d;
  secrets ← remove_named (Name to_add) (slice_of secrets);
  writeSecrets d (append secrets to_add).

(** [func rmSecret(secret_name string)] *)
Definition rmSecret (d : Disk) (secret_name : string) : outcome Disk :=
  secrets ← readSecrets d;
  secrets ← remove_named secret_name (slice_of secrets);
  writeSecrets d (elems secrets).

(** ** Collaborators *)

(** [exec.Cmd], the fields the program sets. [Env] is the list as the
    program leaves it; what [os/exec] makes of a key that occurs twice
    when it starts the child belongs to [os_start]. *)
Record Cmd := mkCmd {
  Path : string;
  Args : list string;
  Env : list string
}.

(** What becomes of a command handed to the operating system. *)
Inductive ChildResult :=
| Exited (status : Z)
| NotStarted (e : error).

(** Library functions: pure, the same at every call. A Go pair
    [(value, err)] whose error the program discards is a pair here. *)
Class Libraries := {
  strings_ToUpper : string → string;
  b64_EncodeToString : bytes → string;
  b64_DecodeString : string → bytes * option error;
  shlex_Split : string → list string * option error
}.

(** The surroundings of one invocation: whether a KMS client can be
    made, what the KMS answers, the environment [os.Environ()] returns
    and what running a command leads to. *)
Class Host := {
  cloudkms_NewKeyManagementClient : option error;
  client_Encrypt : string → bytes → error + bytes;
  client_Decrypt : string → bytes → error + bytes;
  os_Environ : list string;
  os_start : Cmd → ChildResult
}.

(** [strings.Join(elems, sep)] *)
Definition strings_Join (elems : list string) (sep : string) : string :=
  String.concat sep elems.

(** [sort.Strings]: ascending, bytes compared as unsigned numbers. *)
Definition sort_Strings (a : list string) : list string :=
  merge_sort (λ x y, Is_true (String.leb x y)) a.

(** [func encryptSymmetric(keyName string, plaintext []byte) ([]byte, error)] *)
Definition encryptSymmetric {Hst : Host} (keyName : string) (plaintext : bytes)
  : bytes * option error :=
  match cloudkms_NewKeyManagementClient with
  | Some err => ("", Some err)
  | None =>
      match client_Encrypt keyName plaintext with
      | inl err => ("", Some err)
      | inr ciphertext => (ciphertext, None)
      end
  end.

(** [func decryptSymmetric(keyName string, ciphertext []byte) ([]byte, error)] *)
Definition decryptSymmetric {Hst : Host} (keyName : string) (ciphertext : bytes)
  : bytes * option error :=
  match cloudkms_NewKeyManagementClient with
  | Some err => ("", Some err)
  | None =>
      match client_Decrypt keyName ciphertext with
      | inl err => ("", Some err)
      | inr plaintext => (plaintext, None)
      end
  end.

(** ** The command actions *)

(** [*cli.Context]: the positional arguments [c.Args()] and the value of
    the [key] flag, [c.String("key")]. *)
Record Context := mkContext {
  c_Args : list string;
  c_key : string
}.

(** [c.Args().First()]: the first argument, or the empty string. *)
Definition First (args : list string) : string :=
  match args with
  | a :: _ => a
  | [] => ""
  end.

(** The [add] action; [now] is what [time.Now()] returns. *)
Definition add_Action {Lib : Libraries} {Hst : Host} (c : Context) (now : Time) (d : Disk)
  : outcome Disk :=
  if decide (length (c_Args c) ≤ 1) then
    Fatal (ErrorString "Usage: sctl add KEY VALUE")
  else
    let secret_name := First (c_Args c) in
    let plaintext := c_Args c !!! 1 in
    let '(cypher, err) := encryptSymmetric (c_key c) plaintext in
    match err with
    | Some e => Fatal e
    | None =>
        let encoded := b64_EncodeToString cypher in
        let to_add := {| Name := strings_ToUpper secret_name;
                         Cyphertext := encoded;
                         Created := now |} in
        addSecret d to_add
    end.

(** The [rm] action. *)
Definition rm_Action {Lib : Libraries} (c : Context) (d : Disk) : outcome Disk :=
  let secret_name := strings_ToUpper (First (c_Args c)) in
  rmSecret d secret_name.

(** The [list] action; the result is the lines it prints. *)
Definition list_Action (d : Disk) : outcome (list string) :=
  secrets ← readSecrets d;
  let known_keys := foldl (λ keys secret, keys ++ [Name secret]) [] secrets in
  Return (sort_Strings known_keys).

(** [exec.Command(name)]. [Path] holds the name as it was given; the
    search of a bare name in [PATH], which the library does here, is left
    to [os_start]. *)
Definition exec_Command (name : string) : Cmd :=
  {| Path := name; Args := [name]; Env := [] |}.

(** The argument vector the [run] action gives the command:
    [cmd.Args, _ = shlex.Split(strings.Join(c.Args(), ", "))]. *)
Definition run_Args {Lib : Libraries} (args : list string) : list string :=
  (shlex_Split (strings_Join args ", ")).1.

(** One pass of the loop of the [run] action: the entry made for a secret.
    Both errors are discarded; [%s] prints the bytes as they are. *)
Definition skrt {Lib : Libraries} {Hst : Host} (key : string) (secret : Secret) : string :=
  let '(decoded, _) := b64_DecodeString (Cyphertext secret) in
  let '(cypher, _) := decryptSymmetric key decoded in
  Name secret +:+ "=" +:+ cypher.

(** The [run] action up to [cmd.Run()]: the command it has built. *)
Definition run_Cmd {Lib : Libraries} {Hst : Host} (c : Context) (d : Disk) : outcome Cmd :=
  let cmd := exec_Command (First (c_Args c)) in
  let cmd := {| Path := Path cmd; Args := run_Args (c_Args c); Env := Env cmd |} in
  let cmd := {| Path := Path cmd; Args := Args cmd; Env := os_Environ |} in
  secrets ← readSecrets d;
  Return (foldl (λ cmd secret,
                   {| Path := Path cmd; Args := Args cmd;
                      Env := Env cmd ++ [skrt (c_key c) secret] |})
                cmd secrets).

(** [cmd.Run()]: [nil] when the command ran and exited with status 0. *)
Definition cmd_Run {Hst : Host} (cmd : Cmd) : option error :=
  match os_start cmd with
  | Exited status => if decide (status = 0%Z) then None else Some (ExitError status)
  | NotStarted e => Some e
  end.

(** The [run] action. *)
Definition run_Action {Lib : Libraries} {Hst : Host} (c : Context) (d : Disk) : outcome unit :=
  cmd ← run_Cmd c d;
  match cmd_Run cmd with
  | Some err => Fatal err
  | None => Return tt
  end.

(** ** Specification vocabulary *)

(** The names of a list of records, in order. *)
Definition names (l : list Secret) : list string := Name <$> l.

(** The records the document holds, as the program reads them. *)
Definition holds (d : Disk) (l : list Secret) : Prop := readSecrets d = Return l.

(** Removal by relocation: [relocated name l l'] says that [l'] is [l]
    without its record called [name], the last record of [l] having taken
    the freed slot. It covers the lists with at most one such record. *)
Inductive relocated (name : string) : list Secret → list Secret → Prop :=
| relocated_absent l :
    Forall (λ x, Name x ≠ name) l →
    relocated name l l
| relocated_last l1 x :
    Name x = name →
    Forall (λ x, Name x ≠ name) l1 →
    relocated name (l1 ++ [x]) l1
| relocated_middle l1 x l2 y :
    Name x = name →
    Forall (λ x, Name x ≠ name) l1 →
    Forall (λ x, Name x ≠ name) (l2 ++ [y]) →
    relocated name (l1 ++ x :: l2 ++ [y]) (l1 ++ y :: l2).

(** The documents the program itself can produce: starting with no
    document, any number of [add] and [rm] invocations that ran to the
    end, each on a host of its own. *)
Inductive reachable {Lib : Libraries} : Disk → Prop :=
| reachable_fresh d :
    scuttle_json d = None →
    reachable d
| reachable_add (Hst : Host) d c now d' :
    reachable d →
    add_Action c now d = Return d' →
    reachable d'
| reachable_rm d c d' :
    reachable d →
    rm_Action c d = Return d' →
    reachable d'.

(** The invariant of the removal loop run on the slice decoded from [l]:
    the backing array keeps its length, everything from the slice length
    on is the zero value, and the elements of the slice are records of
    [l], among them every record of [l] whose name is not [name]. *)
Definition kept (name : string) (l : list Secret) (s : slice) : Prop :=
  length (array s) = length l ∧
  len s ≤ length l ∧
  (∀ j, len s ≤ j → array s !!! j = Secret_zero) ∧
  filter (λ x, Name x ≠ name) (elems s) ≡ₚ filter (λ x, Name x ≠ name) l ∧
  elems s ⊆+ l.

(** Permission bits apart: owner, group, others. *)
Definition group_bits (p : Z) : Z := Z.land p (octal 0 7 0).
Definition other_bits (p : Z) : Z := Z.land p (octal 0 0 7).

(** Owner read/write only: nothing outside [rw-------]. *)
Definition owner_only (p : Z) : Prop := Z.land p (Z.lnot (octal 6 0 0)) = 0%Z.

(** ** Sample collaborators

    Concrete libraries and hosts on which the statements below are
    exercised. They stand for no particular service. *)
Module Sample.

(** Upper-casing of the ASCII letters. *)
Definition upper_ascii (a : ascii) : ascii :=
  let n := nat_of_ascii a in
  if decide (97 ≤ n ≤ 122) then ascii_of_nat (n - 32) else a.

Fixpoint upper (s : string) : string :=
  match s with
  | EmptyString => EmptyString
  | String a s' => String (upper_ascii a) (upper s')
  end.

(** Words separated by blanks. *)
Fixpoint fields_from (word s : string) : list string :=
  match s with
  | EmptyString => if decide (word = "") then [] else [word]
  | String a s' =>
      if decide (a = " "%char) then
        (if decide (word = "") then [] else [word]) ++ fields_from "" s'
      else fields_from (word +:+ String a "") s'
  end.

Definition fields (s : string) : list string * option error :=
  (fields_from "" s, None).

(** Libraries whose base64 is the identity. *)
Definition lib : Libraries := {|
  strings_ToUpper := upper;
  b64_EncodeToString := λ b, b;
  b64_DecodeString := λ s, (s, None);
  shlex_Split := fields
|}.

(** A host whose KMS wraps plaintexts in brackets when [kms_up], and
    refuses every request otherwise; every command ends as [child]. *)
Definition host (kms_up : bool) (child : ChildResult) : Host := {|
  cloudkms_NewKeyManagementClient := None;
  client_Encrypt := λ _ plaintext,
    if kms_up then inr ("[" +:+ plaintext +:+ "]")
    else inl (ErrorString "kms: unavailable");
  client_Decrypt := λ _ ciphertext,
    if kms_up then inr (String.substring 1 (String.length ciphertext - 2) ciphertext)
    else inl (ErrorString "kms: unavailable");
  os_Environ := ["PATH=/bin"];
  os_start := λ _, child
|}.

(** A disk with no document, umask 022, writable. *)
Definition fresh : Disk :=
  {| scuttle_json := None; umask := octal 0 2 2; write_error := None |}.

(** A disk whose document holds [l], with permissions [rw-r-----]. *)
Definition disk_of (l : list Secret) : Disk :=
  {| scuttle_json := Some {| content := Records l; perm := octal 6 4 0 |};
     umask := octal 0 2 2; write_error := None |}.

(** A disk whose document is not JSON. *)
Definition corrupt : Disk :=
  {| scuttle_json :=
       Some {| content := Malformed (ErrorString "invalid character 'x' looking for beginning of value");
               perm := octal 6 4 0 |};
     umask := octal 0 2 2; write_error := None |}.

Definition A1 : Secret := {| Name := "A"; Cyphertext := "c1"; Created := 1%Z |}.
Definition A2 : Secret := {| Name := "A"; Cyphertext := "c2"; Created := 2%Z |}.
Definition B : Secret := {| Name := "B"; Cyphertext := "c3"; Created := 3%Z |}.
Definition C : Secret := {| Name := "C"; Cyphertext := "c4"; Created := 4%Z |}.
Definition FOO : Secret := {| Name := "FOO"; Cyphertext := "[bar]"; Created := 5%Z |}.

End Sample.

(** * Properties *)

(** ** The removal loop *)
Section SliceLoop.
Implicit Types (l pre seg post : list Secret) (s : slice) (name : string).

(** Iterations that meet no record called [name] change nothing. *)

Lemma range_from_no_match name todo index s :
  (∀ j, index ≤ j < index + todo → Name (array s !!! j) ≠ name) →
  range_from name todo index s = Return s.
Proof.
  revert index. induction todo as [|todo IH]; intros index Hno; simpl; [done|].
  rewrite decide_False; [|apply Hno; lia].
  apply IH. intros j Hj. apply Hno. lia.
Qed.

Lemma range_from_split name a b index s :
  range_from name (a + b) index s =
  range_from name a index s ≫= range_from name b (index + a).
Proof.
  revert index s. induction a as [|a IH]; intros index s; simpl.
  - by rewrite Nat.add_0_r.
  - replace (index + S a) with (S index + a) by lia.
    destruct (decide _); [|apply IH].
    destruct (remove_at index s) as [s'| |]; simpl; [apply IH|done..].
Qed.

Lemma range_from_skip name pre seg post n todo :
  Forall (λ x, Name x ≠ name) seg →
  range_from name (length seg + todo) (length pre)
    {| array := pre ++ seg ++ post; len := n |} =
  range_from name todo (length pre + length seg)
    {| array := pre ++ seg ++ post; len := n |}.
Proof.
  intros Hseg. rewrite range_from_split.
  rewrite range_from_no_match; [done|].
  intros j Hj; simpl.
  rewrite lookup_total_app_r by lia.
  rewrite lookup_total_app_l by lia.
  apply (Forall_lookup_total_1 (λ x, Name x ≠ name)); [done|lia].
Qed.

Lemma remove_named_absent name l :
  Forall (λ x, Name x ≠ name) l →
  remove_named name (slice_of l) = Return (slice_of l).
Proof.
  intros Hl. apply range_from_no_match. intros j Hj; simpl in *.
  apply (Forall_lookup_total_1 (λ x, Name x ≠ name)); [done|lia].
Qed.

Lemma remove_named_last name l1 x :
  Name x = name →
  Forall (λ x, Name x ≠ name) l1 →
  remove_named name (slice_of (l1 ++ [x])) =
  Return {| array := l1 ++ [Secret_zero]; len := length l1 |}.
Proof.
  intros Hx Hl1. unfold remove_named, slice_of; simpl.
  rewrite length_app; simpl.
  pose proof (range_from_skip name [] l1 [x] (length l1 + 1) 1 Hl1) as Hskip.
  simpl in Hskip. rewrite Hskip. simpl.
  rewrite list_lookup_total_middle by done.
  rewrite decide_True by done.
  unfold remove_at; simpl. rewrite Nat.add_1_r.
  rewrite decide_True by lia. simpl.
  rewrite list_lookup_total_middle by done.
  replace (length l1) with (length l1 + 0) at 1 2 by lia.
  by rewrite !insert_app_r.
Qed.

Lemma remove_named_middle name l1 x l2 y :
  Name x = name →
  Forall (λ x, Name x ≠ name) l1 →
  Forall (λ x, Name x ≠ name) l2 →
  remove_named name (slice_of (l1 ++ x :: l2 ++ [y])) =
  if decide (name = "") then
    Panic (IndexOutOfRange (Z.of_nat (length l1 + 1 + length l2))
                           (length l1 + 1 + length l2))
  else
    Return {| array := l1 ++ y :: l2 ++ [Secret_zero];
              len := length l1 + 1 + length l2 |}.
Proof.
  intros Hx Hl1 Hl2. unfold remove_named, slice_of; simpl.
  rewrite length_app; simpl. rewrite length_app; simpl.
  pose proof (range_from_skip name [] l1 (x :: l2 ++ [y])
                (length l1 + S (length l2 + 1))
                (S (length l2 + 1)) Hl1) as Hskip.
  simpl in Hskip. rewrite Hskip. clear Hskip. simpl.
  rewrite list_lookup_total_middle by done.
  rewrite decide_True by done.
  unfold remove_at; simpl.
  replace (length l1 + S (length l2 + 1)) with (S (length l1 + 1 + length l2)) by lia.
  rewrite decide_True by lia. simpl.
  assert (Hmoved : (l1 ++ x :: l2 ++ [y]) !!! (length l1 + 1 + length l2) = y).
  { replace (l1 ++ x :: l2 ++ [y]) with ((l1 ++ x :: l2) ++ [y])
      by (by rewrite <- app_assoc).
    apply list_lookup_total_middle. rewrite length_app; simpl; lia. }
  rewrite Hmoved.
  assert (Harr : <[length l1 + 1 + length l2 := Secret_zero]>
                   (<[length l1 := y]> (l1 ++ x :: l2 ++ [y])) =
                 l1 ++ y :: l2 ++ [Secret_zero]).
  { replace (length l1) with (length l1 + 0) at 2 by lia.
    rewrite insert_app_r. simpl.
    replace (length l1 + 1 + length l2) with (length l1 + S (length l2 + 0)) by lia.
    rewrite insert_app_r. simpl. by rewrite insert_app_r. }
  rewrite Harr.
  pose proof (range_from_skip name (l1 ++ [y]) l2 [Secret_zero]
                (length l1 + 1 + length l2) 1 Hl2) as Hskip.
  rewrite length_app in Hskip; simpl in Hskip.
  rewrite <- !app_assoc in Hskip. simpl in Hskip.
  replace (S (length l1)) with (length l1 + 1) by lia.
  rewrite Hskip. clear Hskip.
  replace (l1 ++ y :: l2 ++ [Secret_zero]) with ((l1 ++ y :: l2) ++ [Secret_zero])
    by (by rewrite <- app_assoc).
  rewrite list_lookup_total_middle by (rewrite length_app; simpl; lia).
  simpl. destruct (decide ("" = name)) as [<-|Hne].
  - rewrite decide_True by done. unfold remove_at; simpl.
    replace (length l1 + 1 + length l2) with (S (length l1 + length l2)) by lia.
    rewrite decide_False by lia. done.
  - rewrite decide_False by done. done.
Qed.

End SliceLoop.

(** ** Stores with unique names *)
Section Stores.
Implicit Types (l : list Secret) (name : string) (d : Disk).

Lemma names_split name l :
  NoDup (names l) → name ∈ names l →
  ∃ l1 x l2, l = l1 ++ x :: l2 ∧ Name x = name ∧
    Forall (λ x, Name x ≠ name) l1 ∧ Forall (λ x, Name x ≠ name) l2.
Proof.
  unfold names. intros Hnd Hin.
  apply list_elem_of_fmap in Hin as (x & -> & Hx).
  apply list_elem_of_split in Hx as (l1 & l2 & ->).
  exists l1, x, l2. split_and!; [done..| |].
  - rewrite fmap_app, fmap_cons in Hnd.
    apply NoDup_app in Hnd as (_ & Hdisj & _).
    apply Forall_forall. intros y Hy Heq.
    apply (Hdisj (Name y)); [by apply list_elem_of_fmap_2|].
    rewrite Heq. left.
  - rewrite fmap_app, fmap_cons in Hnd.
    apply NoDup_app in Hnd as (_ & _ & Hnd).
    apply NoDup_cons in Hnd as [Hnotin _].
    apply Forall_forall. intros y Hy Heq.
    apply Hnotin. rewrite <- Heq. by apply list_elem_of_fmap_2.
Qed.

Lemma names_absent name l :
  name ∉ names l → Forall (λ x, Name x ≠ name) l.
Proof.
  intros Hnotin. apply Forall_forall. intros y Hy Heq.
  apply Hnotin. rewrite <- Heq. by apply list_elem_of_fmap_2.
Qed.

Lemma elems_zero_tail l z : elems {| array := l ++ [z]; len := length l |} = l.
Proof. unfold elems; simpl. by rewrite take_app_length. Qed.

(** On a list with unique names the loop either relocates, or panics on
    the empty name. *)
Lemma remove_named_unique name l :
  NoDup (names l) →
  (∃ s, remove_named name (slice_of l) = Return s ∧ relocated name l (elems s))
  ∨ (name = "" ∧ ∃ p, remove_named name (slice_of l) = Panic p).
Proof.
  intros Hnd. destruct (decide (name ∈ names l)) as [Hin|Hnotin].
  - destruct (names_split name l Hnd Hin) as (l1 & x & l2 & -> & Hx & Hl1 & Hl2).
    destruct (decide (l2 = [])) as [->|Hne].
    + left. eexists; split; [by apply remove_named_last|].
      rewrite elems_zero_tail. by constructor.
    + destruct (exists_last Hne) as (l2' & y & ->).
      apply Forall_app in Hl2 as Hl2'. destruct Hl2' as [Hl2' _].
      rewrite (remove_named_middle name l1 x l2' y Hx Hl1 Hl2').
      destruct (decide (name = "")) as [->|Hname].
      * right. eauto.
      * left. eexists; split; [done|].
        replace (l1 ++ y :: l2' ++ [Secret_zero])
          with ((l1 ++ y :: l2') ++ [Secret_zero]) by (by rewrite <- app_assoc).
        replace (length l1 + 1 + length l2') with (length (l1 ++ y :: l2'))
          by (rewrite length_app; simpl; lia).
        rewrite elems_zero_tail. by constructor.
  - left. apply names_absent in Hnotin.
    eexists; split; [by apply remove_named_absent|].
    unfold elems, slice_of; simpl. rewrite firstn_all. by constructor.
Qed.

Lemma relocated_Permutation name l l' :
  relocated name l l' → l' ≡ₚ filter (λ x, Name x ≠ name) l.
Proof.
  assert (Hid : ∀ k, Forall (λ x, Name x ≠ name) k →
                     filter (λ x, Name x ≠ name) k = k).
  { intros k Hk. induction Hk as [|z k Hz _ IH]; [done|].
    rewrite filter_cons_True by done. by rewrite IH. }
  destruct 1 as [l Hl|l1 x Hx Hl1|l1 x l2 y Hx Hl1 Hl2].
  - by rewrite Hid.
  - rewrite filter_app, Hid by done.
    rewrite filter_cons_False by (intros Hc; by apply Hc).
    by rewrite filter_nil, app_nil_r.
  - rewrite filter_app, Hid by done.
    rewrite filter_cons_False by (intros Hc; by apply Hc).
    rewrite Hid by done.
    apply Permutation_app_head. by rewrite Permutation_app_comm.
Qed.

Lemma relocated_Forall name l l' :
  relocated name l l' → Forall (λ x, Name x ≠ name) l'.
Proof.
  destruct 1 as [l Hl|l1 x Hx Hl1|l1 x l2 y Hx Hl1 Hl2]; [done..|].
  apply Forall_app in Hl2 as [Hl2 Hy]. apply Forall_app; split; [done|].
  apply Forall_cons; split; [by inversion Hy|done].
Qed.

Lemma relocated_NoDup name l l' :
  relocated name l l' → NoDup (names l) → NoDup (names l').
Proof.
  intros Hrel Hnd. apply relocated_Permutation in Hrel.
  unfold names in *. rewrite Hrel.
  eapply sublist_NoDup; [exact Hnd|].
  apply fmap_sublist, sublist_filter.
Qed.

Lemma read_after_write d data d' :
  writeSecrets d data = Return d' →
  holds d' data ∧ write_error d' = None ∧ umask d' = umask d.
Proof.
  unfold writeSecrets, ioutil_WriteFile, holds, readSecrets, ioutil_ReadFile.
  destruct (write_error d); [done|]. intros [= <-]; simpl.
  by destruct (scuttle_json d).
Qed.

Lemma writeSecrets_total d data :
  write_error d = None → ∃ d', writeSecrets d data = Return d'.
Proof.
  intros Hw. unfold writeSecrets, ioutil_WriteFile. rewrite Hw. eauto.
Qed.

Lemma rmSecret_inv d name d' l :
  holds d l → rmSecret d name = Return d' →
  ∃ s, remove_named name (slice_of l) = Return s ∧
       writeSecrets d (elems s) = Return d'.
Proof.
  unfold holds, rmSecret. intros ->. simpl.
  destruct (remove_named name (slice_of l)) as [s| |]; simpl; [eauto|done..].
Qed.

Lemma addSecret_inv d to_add d' l :
  holds d l → addSecret d to_add = Return d' →
  ∃ s, remove_named (Name to_add) (slice_of l) = Return s ∧
       writeSecrets d (append s to_add) = Return d'.
Proof.
  unfold holds, addSecret. intros ->. simpl.
  destruct (remove_named _ (slice_of l)) as [s| |]; simpl; [eauto|done..].
Qed.

Lemma relocated_of_Return name l s :
  NoDup (names l) → remove_named name (slice_of l) = Return s →
  relocated name l (elems s).
Proof.
  intros Hnd Hs.
  destruct (remove_named_unique name l Hnd) as [(s' & Hs' & Hrel)|(_ & p & Hp)];
    congruence.
Qed.

Lemma remove_named_total name l :
  NoDup (names l) → name ≠ "" →
  ∃ s, remove_named name (slice_of l) = Return s.
Proof.
  intros Hnd Hname.
  destruct (remove_named_unique name l Hnd) as [(s & Hs & _)|(? & _)]; [eauto|done].
Qed.
End Stores.

(** ** [rm] and the upsert of [add] *)
Section Operations.
Implicit Types (l : list Secret) (name : string) (d : Disk).

Lemma rmSecret_unique d l name d' :
  holds d l → NoDup (names l) → rmSecret d name = Return d' →
  ∃ l', relocated name l l' ∧ holds d' l' ∧ NoDup (names l') ∧
        write_error d' = None.
Proof.
  intros Hd Hnd Hrm.
  destruct (rmSecret_inv d name d' l Hd Hrm) as (s & Hs & Hw).
  apply relocated_of_Return in Hs; [|done].
  apply read_after_write in Hw as (Hd' & Hwe & _).
  exists (elems s). split_and!; [done..| |done].
  by eapply relocated_NoDup.
Qed.

Lemma addSecret_unique d l to_add d' :
  holds d l → NoDup (names l) → addSecret d to_add = Return d' →
  ∃ l', relocated (Name to_add) l l' ∧ holds d' (l' ++ [to_add]) ∧
        NoDup (names (l' ++ [to_add])) ∧ write_error d' = None.
Proof.
  intros Hd Hnd Hadd.
  destruct (addSecret_inv d to_add d' l Hd Hadd) as (s & Hs & Hw).
  apply relocated_of_Return in Hs; [|done].
  apply read_after_write in Hw as (Hd' & Hwe & _).
  exists (elems s). split_and!; [done..| |done].
  unfold names. rewrite fmap_app. apply NoDup_app. split_and!.
  - by eapply relocated_NoDup.
  - intros k Hk ->%list_elem_of_singleton.
    apply list_elem_of_fmap in Hk as (x & Heq & Hx).
    apply relocated_Forall in Hs.
    by eapply (proj1 (Forall_forall _ _) Hs x).
  - apply NoDup_singleton.
Qed.

Lemma rmSecret_total d l name :
  holds d l → NoDup (names l) → name ≠ "" → write_error d = None →
  ∃ d', rmSecret d name = Return d'.
Proof.
  intros Hd Hnd Hname Hw. unfold rmSecret. rewrite Hd; simpl.
  destruct (remove_named_total name l Hnd Hname) as (s & ->); simpl.
  by apply writeSecrets_total.
Qed.

Lemma addSecret_total d l to_add :
  holds d l → NoDup (names l) → Name to_add ≠ "" → write_error d = None →
  ∃ d', addSecret d to_add = Return d'.
Proof.
  intros Hd Hnd Hname Hw. unfold addSecret. rewrite Hd; simpl.
  destruct (remove_named_total (Name to_add) l Hnd Hname) as (s & ->); simpl.
  by apply writeSecrets_total.
Qed.

(** Removing a name no record has rewrites the document with the same
    records. *)
Lemma rmSecret_absent d l name :
  holds d l → Forall (λ x, Name x ≠ name) l → write_error d = None →
  ∃ d', rmSecret d name = Return d' ∧ holds d' l.
Proof.
  intros Hd Hl Hw. unfold rmSecret. rewrite Hd; simpl.
  rewrite remove_named_absent by done; simpl.
  unfold elems, slice_of; simpl. rewrite firstn_all.
  destruct (writeSecrets_total d l Hw) as (d' & Hd').
  exists d'. split; [done|]. by apply read_after_write in Hd' as (? & _).
Qed.

(** X4. On a store with unique names, once [rm] of a name has run to
    the end, a second [rm] of that name succeeds and leaves the disk as
    the first one left it. *)
Lemma rmSecret_twice_unique d l name d1 :
  holds d l → NoDup (names l) → rmSecret d name = Return d1 →
  rmSecret d1 name = Return d1.
Proof.
  intros Hd Hnd Hrm.
  destruct (rmSecret_inv d name d1 l Hd Hrm) as (s & Hs & Hw).
  apply relocated_of_Return in Hs; [|done].
  apply relocated_Forall in Hs.
  pose proof Hw as (Hd1 & _)%read_after_write.
  unfold rmSecret. rewrite Hd1; simpl.
  rewrite remove_named_absent by done; simpl.
  unfold elems, slice_of; simpl. rewrite firstn_all.
  revert Hw. unfold writeSecrets, ioutil_WriteFile.
  destruct (write_error d); [done|]. intros [= <-]; simpl.
  by destruct (scuttle_json d).
Qed.

(** C10. On a store with unique names, [rm] and the upsert of [add]
    leave every record of another name in place with its fields
    unchanged: the new list is the old one without the target (plus the
    new record at the end, for the upsert), up to order, and the order
    changes only in that the last record fills the freed slot
    ([relocated]). Both run to the end whenever the target name is not
    empty and the document can be written. *)
Theorem remove_and_upsert_frame d l :
  holds d l → NoDup (names l) →
  (∀ name d', rmSecret d name = Return d' →
     ∃ l', holds d' l' ∧ relocated name l l' ∧
           l' ≡ₚ filter (λ x, Name x ≠ name) l ∧
           ∀ x, Name x ≠ name → (x ∈ l' ↔ x ∈ l)) ∧
  (∀ record d', addSecret d record = Return d' →
     ∃ l', holds d' (l' ++ [record]) ∧ relocated (Name record) l l' ∧
           l' ≡ₚ filter (λ x, Name x ≠ Name record) l ∧
           ∀ x, Name x ≠ Name record → (x ∈ l' ↔ x ∈ l)) ∧
  (∀ name, name ≠ "" → write_error d = None →
     (∃ d', rmSecret d name = Return d') ∧
     (∀ record, Name record = name → ∃ d', addSecret d record = Return d')).
Proof.
  intros Hd Hnd.
  assert (Hmem : ∀ name l', l' ≡ₚ filter (λ x, Name x ≠ name) l →
                 ∀ x, Name x ≠ name → (x ∈ l' ↔ x ∈ l)).
  { intros name l' Hperm x Hx. rewrite Hperm, list_elem_of_filter. tauto. }
  split_and!.
  - intros name d' Hrm.
    destruct (rmSecret_unique d l name d' Hd Hnd Hrm) as (l' & Hrel & Hd' & _).
    exists l'. pose proof (relocated_Permutation _ _ _ Hrel). eauto.
  - intros record d' Hadd.
    destruct (addSecret_unique d l record d' Hd Hnd Hadd) as (l' & Hrel & Hd' & _).
    exists l'. pose proof (relocated_Permutation _ _ _ Hrel). eauto.
  - intros name Hname Hw. split.
    + by eapply rmSecret_total.
    + intros record <-. by eapply addSecret_total.
Qed.

Lemma remove_and_upsert_frame_witness :
  holds (Sample.disk_of [Sample.A1; Sample.B; Sample.C]) [Sample.A1; Sample.B; Sample.C] ∧
  NoDup (names [Sample.A1; Sample.B; Sample.C]) ∧
  ∃ d' l', rmSecret (Sample.disk_of [Sample.A1; Sample.B; Sample.C]) "A" = Return d' ∧
           holds d' l' ∧ l' ≡ₚ [Sample.B; Sample.C].
Proof.
  assert (Hd : holds (Sample.disk_of [Sample.A1; Sample.B; Sample.C])
                 [Sample.A1; Sample.B; Sample.C]) by reflexivity.
  assert (Hnd : NoDup (names [Sample.A1; Sample.B; Sample.C])).
  { apply (bool_decide_unpack _). vm_compute. exact I. }
  split_and!; [done..|].
  destruct (remove_and_upsert_frame _ _ Hd Hnd) as (Hrm & _ & Htot).
  destruct (Htot "A") as [(d' & Hd') _]; [done..|].
  destruct (Hrm "A" d' Hd') as (l' & Hl' & _ & Hperm & _).
  exists d', l'. split_and!; [done..|].
  rewrite Hperm. reflexivity.
Defined.

(** C5. A document holding two records called [A]: [rm A] runs to the
    end and one of the two is still there. *)
Theorem rmSecret_duplicate_survives :
  rmSecret (Sample.disk_of [Sample.A1; Sample.A2]) "A" =
  Return (Sample.disk_of [Sample.A2]).
Proof. reflexivity. Qed.

(** C9. On the same document, a second [rm A] does not leave what the
    first one left: it removes the record the first one kept. *)
Theorem rmSecret_twice_differs :
  rmSecret (Sample.disk_of [Sample.A1; Sample.A2]) "A" =
    Return (Sample.disk_of [Sample.A2]) ∧
  rmSecret (Sample.disk_of [Sample.A2]) "A" = Return (Sample.disk_of []) ∧
  Sample.disk_of [Sample.A2] ≠ Sample.disk_of [].
Proof. split_and!; [reflexivity..|discriminate]. Qed.
End Operations.

(** ** The [add] and [list] actions *)
Section Actions.
Context {Lib : Libraries}.
Implicit Types (l : list Secret) (name : string) (d : Disk).

Lemma known_keys_names l acc :
  foldl (λ keys secret, keys ++ [Name secret]) acc l = acc ++ names l.
Proof.
  revert acc. induction l as [|x l IH]; intros acc; simpl.
  - by rewrite app_nil_r.
  - rewrite IH. by rewrite <- app_assoc.
Qed.

Lemma list_Action_holds d l :
  holds d l → list_Action d = Return (sort_Strings (names l)).
Proof.
  unfold holds, list_Action. intros ->; simpl. by rewrite known_keys_names.
Qed.

Lemma sort_Strings_Permutation a : sort_Strings a ≡ₚ a.
Proof. apply merge_sort_Permutation. Qed.

Lemma add_Action_inv {Hst : Host} name v rest key now d d' :
  add_Action (mkContext (name :: v :: rest) key) now d = Return d' →
  ∃ cypher, encryptSymmetric key v = (cypher, None) ∧
    addSecret d {| Name := strings_ToUpper name;
                   Cyphertext := b64_EncodeToString cypher;
                   Created := now |} = Return d'.
Proof.
  unfold add_Action; simpl.
  destruct (encryptSymmetric key v) as [cypher [e|]]; [done|]. eauto.
Qed.

Lemma add_Action_total {Hst : Host} name v rest key now d l :
  holds d l → NoDup (names l) → strings_ToUpper name ≠ "" →
  write_error d = None → (encryptSymmetric key v).2 = None →
  ∃ d', add_Action (mkContext (name :: v :: rest) key) now d = Return d'.
Proof.
  intros Hd Hnd Hname Hw Henc. unfold add_Action; simpl.
  destruct (encryptSymmetric key v) as [cypher [e|]]; [done|].
  by eapply addSecret_total.
Qed.

Lemma filter_absent name l :
  Forall (λ x, Name x ≠ name) l →
  filter (λ x, Name x = name) l = [] ∧ filter (λ k, k = name) (names l) = [].
Proof.
  induction 1 as [|x k Hx _ [IH1 IH2]]; [done|]. simpl.
  by rewrite !filter_cons_False.
Qed.

(** X5. Every document the program produces, starting with no document
    and running [add] and [rm] to the end any number of times, can be
    read back and has unique names. *)
Lemma reachable_unique d :
  reachable d → ∃ l, holds d l ∧ NoDup (names l).
Proof.
  induction 1 as [d Hnone|Hst d c now d' _ (l & Hd & Hnd) Hadd
                 |d c d' _ (l & Hd & Hnd) Hrm].
  - exists []. split; [|constructor].
    unfold holds, readSecrets, ioutil_ReadFile. by rewrite Hnone.
  - revert Hadd. unfold add_Action.
    destruct (decide _); [done|].
    destruct (encryptSymmetric _ _) as [cypher [e|]]; [done|]. intros Hadd.
    destruct (addSecret_unique _ _ _ _ Hd Hnd Hadd) as (l' & _ & Hd' & Hnd' & _).
    eauto.
  - destruct (rmSecret_unique _ _ _ _ Hd Hnd Hrm) as (l' & _ & Hd' & Hnd' & _).
    eauto.
Qed.

(** C6. On a store with unique names (as every store the program
    produces has), whenever [add name v1] and then [add name v2] run to
    the end, names are unique after each of them, the final store has
    exactly one record under the upper-cased name, that record carries the
    encoded ciphertext obtained for [v2], and [list] prints the name
    exactly once. Both invocations do run to the end when the upper-cased
    name is not empty, both encryptions succeed and the document can be
    written. *)
Theorem add_twice_keeps_one (H1 H2 : Host) d l name v1 v2 key1 key2 now1 now2 :
  holds d l → NoDup (names l) →
  (∀ d1 d2,
     add_Action (Hst := H1) (mkContext [name; v1] key1) now1 d = Return d1 →
     add_Action (Hst := H2) (mkContext [name; v2] key2) now2 d1 = Return d2 →
     ∃ l1 l2 cypher out,
       holds d1 l1 ∧ NoDup (names l1) ∧
       holds d2 l2 ∧ NoDup (names l2) ∧
       encryptSymmetric (Hst := H2) key2 v2 = (cypher, None) ∧
       filter (λ x, Name x = strings_ToUpper name) l2 =
         [{| Name := strings_ToUpper name;
             Cyphertext := b64_EncodeToString cypher;
             Created := now2 |}] ∧
       list_Action d2 = Return out ∧
       filter (λ k, k = strings_ToUpper name) out = [strings_ToUpper name]) ∧
  (strings_ToUpper name ≠ "" → write_error d = None →
   (encryptSymmetric (Hst := H1) key1 v1).2 = None →
   (encryptSymmetric (Hst := H2) key2 v2).2 = None →
   ∃ d1 d2,
     add_Action (Hst := H1) (mkContext [name; v1] key1) now1 d = Return d1 ∧
     add_Action (Hst := H2) (mkContext [name; v2] key2) now2 d1 = Return d2).
Proof.
  intros Hd Hnd. split.
  - intros d1 d2 Hadd1 Hadd2.
    apply add_Action_inv in Hadd1 as (c1 & _ & Hadd1).
    apply add_Action_inv in Hadd2 as (c2 & Henc2 & Hadd2).
    set (r1 := {| Name := strings_ToUpper name;
                  Cyphertext := b64_EncodeToString c1; Created := now1 |}) in *.
    set (r2 := {| Name := strings_ToUpper name;
                  Cyphertext := b64_EncodeToString c2; Created := now2 |}) in *.
    destruct (addSecret_unique _ _ _ _ Hd Hnd Hadd1)
      as (l1 & _ & Hd1 & Hnd1 & _).
    destruct (addSecret_unique _ _ _ _ Hd1 Hnd1 Hadd2)
      as (l2 & Hrel & Hd2 & Hnd2 & _).
    apply relocated_Forall in Hrel. simpl in Hrel.
    destruct (filter_absent _ _ Hrel) as [Hrec Hkey].
    exists (l1 ++ [r1]), (l2 ++ [r2]), c2, (sort_Strings (names (l2 ++ [r2]))).
    split_and!; [done..| |by apply list_Action_holds|].
    + rewrite filter_app, Hrec. by rewrite filter_cons_True.
    + apply Permutation_singleton_r.
      rewrite sort_Strings_Permutation.
      unfold names in *. rewrite fmap_app, filter_app, Hkey. simpl.
      by rewrite filter_cons_True.
  - intros Hname Hw Henc1 Henc2.
    destruct (add_Action_total (Hst := H1) name v1 [] key1 now1 d l)
      as (d1 & Hadd1); [done..|].
    pose proof Hadd1 as (c1 & _ & Hadd1')%add_Action_inv.
    destruct (addSecret_unique _ _ _ _ Hd Hnd Hadd1')
      as (l1 & _ & Hd1 & Hnd1 & Hw1).
    destruct (add_Action_total (Hst := H2) name v2 [] key2 now2 d1 _ Hd1)
      as (d2 & Hadd2); [done..|].
    eauto.
Qed.

End Actions.

Lemma add_twice_keeps_one_witness :
  holds Sample.fresh [] ∧ NoDup (names []) ∧
  ∃ d1 d2 l2,
    add_Action (Lib := Sample.lib) (Hst := Sample.host true (Exited 0))
      (mkContext ["db_pass"; "one"] "k") 1%Z Sample.fresh = Return d1 ∧
    add_Action (Lib := Sample.lib) (Hst := Sample.host true (Exited 0))
      (mkContext ["db_pass"; "two"] "k") 2%Z d1 = Return d2 ∧
    holds d2 l2 ∧
    filter (λ x, Name x = "DB_PASS") l2 =
      [{| Name := "DB_PASS"; Cyphertext := "[two]"; Created := 2%Z |}] ∧
    list_Action d2 = Return ["DB_PASS"].
Proof.
  assert (Hd : holds Sample.fresh []) by reflexivity.
  assert (Hnd : NoDup (names [])) by constructor.
  split_and!; [done..|].
  destruct (add_twice_keeps_one (Lib := Sample.lib)
              (Sample.host true (Exited 0)) (Sample.host true (Exited 0))
              Sample.fresh [] "db_pass" "one" "two" "k" "k" 1%Z 2%Z Hd Hnd)
    as [Hprop Htot].
  destruct Htot as (d1 & d2 & Hadd1 & Hadd2); [by vm_compute|reflexivity..|].
  destruct (Hprop d1 d2 Hadd1 Hadd2)
    as (l1 & l2 & cypher & out & _ & _ & Hd2 & _ & Henc & Hrec & Hout & _).
  injection Henc as <-.
  exists d1, d2, l2. split_and!; [done..|].
  rewrite Hout. revert Hadd1 Hadd2 Hout. clear.
  vm_compute. intros [= <-] [= <-] [= <-]. reflexivity.
Defined.

(** ** Loading the document *)
Section Loading.
Context {Lib : Libraries} {Hst : Host}.

(** C7. A document that is there and that [json.Unmarshal] rejects makes
    [readSecrets] end the process through [log.Fatal]: it returns no list,
    empty or not, and each of the four actions ends with exit status 1. *)
Theorem corrupt_store_is_fatal d f e (c : Context) (now : Time) :
  scuttle_json d = Some f → json_Unmarshal (content f) = inl e →
  readSecrets d = Fatal e ∧
  (∀ l, readSecrets d ≠ Return l) ∧
  list_Action d = Fatal e ∧
  rm_Action c d = Fatal e ∧
  run_Action c d = Fatal e ∧
  (∃ e', add_Action c now d = Fatal e') ∧
  exit_status (list_Action d) = 1%Z ∧
  exit_status (rm_Action c d) = 1%Z ∧
  exit_status (run_Action c d) = 1%Z ∧
  exit_status (add_Action c now d) = 1%Z.
Proof.
  intros Hf He.
  assert (Hread : readSecrets d = Fatal e).
  { unfold readSecrets, ioutil_ReadFile. by rewrite Hf, He. }
  assert (Hadd : ∃ e', add_Action c now d = Fatal e').
  { unfold add_Action. destruct (decide _); [eauto|].
    destruct (encryptSymmetric _ _) as [cypher [e'|]]; [eauto|].
    unfold addSecret. rewrite Hread. simpl. eauto. }
  unfold list_Action, rm_Action, rmSecret, run_Action, run_Cmd.
  rewrite Hread. simpl. destruct Hadd as (e' & ->).
  split_and!; try done. eauto.
Qed.

(** C8. With no document on disk, [readSecrets] returns the empty list
    and no error, and [list] prints nothing and ends with status 0. *)
Theorem absent_store_is_empty d :
  scuttle_json d = None →
  readSecrets d = Return [] ∧
  list_Action d = Return [] ∧
  exit_status (list_Action d) = 0%Z.
Proof.
  intros Hnone.
  assert (Hread : readSecrets d = Return []).
  { unfold readSecrets, ioutil_ReadFile. by rewrite Hnone. }
  unfold list_Action. rewrite Hread. done.
Qed.
End Loading.

Lemma corrupt_store_is_fatal_witness :
  scuttle_json Sample.corrupt =
    Some {| content := Malformed (ErrorString "invalid character 'x' looking for beginning of value");
            perm := octal 6 4 0 |} ∧
  list_Action Sample.corrupt =
    Fatal (ErrorString "invalid character 'x' looking for beginning of value").
Proof.
  split; [reflexivity|].
  eapply (corrupt_store_is_fatal (Lib := Sample.lib)
            (Hst := Sample.host true (Exited 0))
            Sample.corrupt _ _ (mkContext [] "k") 0%Z); reflexivity.
Defined.

Lemma absent_store_is_empty_witness :
  scuttle_json Sample.fresh = None ∧ list_Action Sample.fresh = Return [].
Proof.
  split; [reflexivity|].
  apply (absent_store_is_empty Sample.fresh). reflexivity.
Defined.

(** ** Saving the document *)
Section Saving.
Implicit Types (d : Disk) (data : list Secret).

Lemma ldiff_keeps_clear a u m :
  Z.land a m = 0%Z → Z.land (Z.ldiff a u) m = 0%Z.
Proof.
  intros Ham. apply Z.bits_inj'. intros n Hn.
  rewrite Z.land_spec, Z.ldiff_spec, Z.bits_0.
  assert (Hbit : Z.testbit (Z.land a m) n = false) by (by rewrite Ham, Z.bits_0).
  rewrite Z.land_spec in Hbit.
  destruct (Z.testbit a n), (Z.testbit m n), (Z.testbit u n); done.
Qed.

(** C4 (amended). Every save hands mode 0660 to [WriteFile]. A document
    the save creates gets 0660 less the umask: no access for others and
    no execute bit, while the group bits of 0660 stay unless the umask
    clears them. A document that was there keeps its permissions. *)
Theorem writeSecrets_permissions d data d' :
  writeSecrets d data = Return d' →
  mode = octal 6 6 0 ∧
  ∃ f', scuttle_json d' = Some f' ∧ content f' = Records data ∧
    match scuttle_json d with
    | None =>
        perm f' = Z.ldiff (octal 6 6 0) (umask d) ∧
        other_bits (perm f') = 0%Z ∧
        Z.land (perm f') (octal 1 1 1) = 0%Z ∧
        group_bits (perm f') = Z.ldiff (octal 0 6 0) (umask d)
    | Some f => perm f' = perm f
    end.
Proof.
  unfold writeSecrets, ioutil_WriteFile.
  destruct (write_error d); [done|]. intros Heq. injection Heq as Heq. subst d'.
  split; [reflexivity|].
  destruct (scuttle_json d) as [f|].
  { exists {| content := Records data; perm := perm f |}. by split_and!. }
  exists {| content := Records data; perm := Z.ldiff mode (umask d) |}.
  split; [reflexivity|]. split; [reflexivity|].
  change (perm {| content := Records data; perm := Z.ldiff mode (umask d) |})
    with (Z.ldiff mode (umask d)).
  split; [reflexivity|]. split; [|split].
  - apply ldiff_keeps_clear. reflexivity.
  - apply ldiff_keeps_clear. reflexivity.
  - unfold group_bits. apply Z.bits_inj'. intros n Hn.
    rewrite Z.land_spec, !Z.ldiff_spec.
    assert (Hsub : Z.testbit (octal 0 6 0) n =
                   Z.testbit (mode) n && Z.testbit (octal 0 7 0) n).
    { change (octal 0 6 0) with (Z.land mode (octal 0 7 0)).
      by rewrite Z.land_spec. }
    rewrite Hsub.
    destruct (Z.testbit mode n), (Z.testbit (octal 0 7 0) n),
      (Z.testbit (umask d) n); done.
Qed.
End Saving.

Lemma writeSecrets_permissions_witness :
  writeSecrets Sample.fresh [Sample.FOO] = Return (Sample.disk_of [Sample.FOO]) ∧
  ∃ f', scuttle_json (Sample.disk_of [Sample.FOO]) = Some f' ∧
        other_bits (perm f') = 0%Z.
Proof.
  assert (Hw : writeSecrets Sample.fresh [Sample.FOO] =
               Return (Sample.disk_of [Sample.FOO])) by reflexivity.
  split; [done|].
  destruct (writeSecrets_permissions _ _ _ Hw) as (_ & f' & Hf' & _ & Hperm).
  exists f'. split; [done|]. apply Hperm.
Defined.

(** C4, as stated, fails: with the usual umask 022 the document a save
    creates is [rw-r-----], readable by the group; the mode asked for,
    0660, is not owner-only either. *)
Lemma writeSecrets_group_can_read :
  writeSecrets Sample.fresh [Sample.FOO] = Return (Sample.disk_of [Sample.FOO]) ∧
  perm <$> scuttle_json (Sample.disk_of [Sample.FOO]) = Some (octal 6 4 0) ∧
  group_bits (octal 6 4 0) = octal 0 4 0 ∧
  ¬ owner_only (octal 6 4 0) ∧
  ¬ owner_only mode.
Proof.
  split_and!; [reflexivity..| |]; unfold owner_only; by vm_compute.
Qed.

(** ** The [run] action *)
Section Run.
Context {Lib : Libraries} {Hst : Host}.
Implicit Types (l : list Secret) (d : Disk) (c : Context).

Lemma run_Env_fold key l cmd :
  foldl (λ cmd secret,
           {| Path := Path cmd; Args := Args cmd;
              Env := Env cmd ++ [skrt key secret] |}) cmd l =
  {| Path := Path cmd; Args := Args cmd;
     Env := Env cmd ++ (skrt key <$> l) |}.
Proof.
  revert cmd. induction l as [|x l IH]; intros cmd; simpl.
  - rewrite app_nil_r. by destruct cmd.
  - rewrite IH. simpl. by rewrite <- app_assoc.
Qed.

(** The command [run] builds, in one piece. *)
Lemma run_Cmd_holds c d l :
  holds d l →
  run_Cmd c d = Return {| Path := First (c_Args c);
                          Args := run_Args (c_Args c);
                          Env := os_Environ ++ (skrt (c_key c) <$> l) |}.
Proof.
  unfold holds, run_Cmd. intros ->; simpl. by rewrite run_Env_fold.
Qed.

Lemma decryptSymmetric_error key ciphertext :
  (decryptSymmetric key ciphertext).2 ≠ None →
  (decryptSymmetric key ciphertext).1 = "".
Proof.
  unfold decryptSymmetric.
  destruct cloudkms_NewKeyManagementClient; [done|].
  by destruct (client_Decrypt key ciphertext).
Qed.

Lemma skrt_error key secret :
  (decryptSymmetric key (b64_DecodeString (Cyphertext secret)).1).2 ≠ None →
  skrt key secret = Name secret +:+ "=".
Proof.
  intros Herr%decryptSymmetric_error. unfold skrt.
  destruct (b64_DecodeString (Cyphertext secret)) as [decoded ?].
  simpl in Herr.
  destruct (decryptSymmetric key decoded) as [cypher ?].
  simpl in Herr. by subst cypher.
Qed.

(** C1 (amended). For every command [run] launches: when the child exits
    with status 0 the action returns and the process ends with status 0;
    when the child exits with any other status, [cmd.Run] yields an
    [ExitError] carrying that status, which is logged through
    [log.Fatal], and the process ends with status 1; when the command
    cannot be started, the start error is logged the same way and the
    process ends with status 1. *)
Theorem run_exit_status c d cmd :
  run_Cmd c d = Return cmd →
  run_Action c d =
    match os_start cmd with
    | Exited status =>
        if decide (status = 0%Z) then Return () else Fatal (ExitError status)
    | NotStarted e => Fatal e
    end ∧
  exit_status (run_Action c d) =
    match os_start cmd with
    | Exited status => if decide (status = 0%Z) then 0%Z else 1%Z
    | NotStarted _ => 1%Z
    end.
Proof.
  intros Hcmd. unfold run_Action, cmd_Run. rewrite Hcmd; simpl.
  destruct (os_start cmd) as [status|e]; [|done].
  by destruct (decide (status = 0%Z)).
Qed.

(** Two command lines with one joined text. *)
Lemma run_Args_same :
  run_Args ["echo"; "a, b"] = run_Args ["echo"; "a"; "b"].
Proof. reflexivity. Qed.

(** C2. The program [run] launches is the command named, but whatever
    the tokenizer, [run echo "a, b"] and [run echo a b] hand the child
    one and the same argument vector, so for one of the two command
    lines it is not the arguments as they were given. *)
Theorem run_conflates_arguments d l key :
  holds d l →
  ∃ cmd1 cmd2,
    run_Cmd (mkContext ["echo"; "a, b"] key) d = Return cmd1 ∧
    run_Cmd (mkContext ["echo"; "a"; "b"] key) d = Return cmd2 ∧
    Path cmd1 = "echo" ∧ Path cmd2 = "echo" ∧
    Args cmd1 = Args cmd2 ∧
    (Args cmd1 ≠ ["echo"; "a, b"] ∨ Args cmd2 ≠ ["echo"; "a"; "b"]).
Proof.
  intros Hd. do 2 eexists.
  split; [by apply run_Cmd_holds|]. split; [by apply run_Cmd_holds|].
  cbn [Path Args c_Args First]. split; [done|]. split; [done|].
  split; [apply run_Args_same|].
  destruct (decide (run_Args ["echo"; "a, b"] = ["echo"; "a, b"])) as [Heq|Hne];
    [right|by left].
  rewrite <- run_Args_same, Heq. discriminate.
Qed.

(** C3 (amended). [run] skips no stored secret. A record whose
    decryption fails (on whatever the base64 decoding gave, its error
    being discarded too) still gets an entry in the environment list the
    command is started with, [cmd.Env]: [NAME=] with an empty value. A
    record that is decrypted gets [NAME=] followed by the plaintext.
    The command is launched with that list. *)
Theorem run_exports_every_secret c d l :
  holds d l →
  ∃ cmd,
    run_Cmd c d = Return cmd ∧
    (∀ secret,
       secret ∈ l →
       (decryptSymmetric (c_key c) (b64_DecodeString (Cyphertext secret)).1).2 ≠ None →
       Name secret +:+ "=" ∈ Env cmd) ∧
    (∀ secret plaintext,
       secret ∈ l →
       decryptSymmetric (c_key c) (b64_DecodeString (Cyphertext secret)).1 =
         (plaintext, None) →
       Name secret +:+ "=" +:+ plaintext ∈ Env cmd) ∧
    run_Action c d =
      match cmd_Run cmd with
      | Some err => Fatal err
      | None => Return ()
      end.
Proof.
  intros Hd. eexists. split; [by apply run_Cmd_holds|]. cbn [Env].
  split_and!.
  - intros secret Hin Herr. apply elem_of_app; right.
    rewrite <- (skrt_error _ _ Herr). by apply list_elem_of_fmap_2.
  - intros secret plaintext Hin Hdec. apply elem_of_app; right.
    apply list_elem_of_fmap. exists secret. split; [|done].
    unfold skrt. destruct (b64_DecodeString (Cyphertext secret)) as [decoded ?].
    simpl in Hdec. by rewrite Hdec.
  - unfold run_Action. by rewrite (run_Cmd_holds _ _ _ Hd).
Qed.
End Run.

Lemma run_exit_status_witness :
  run_Cmd (Lib := Sample.lib) (Hst := Sample.host true (Exited 3))
    (mkContext ["env"] "k") (Sample.disk_of [Sample.FOO]) =
    Return {| Path := "env"; Args := ["env"]; Env := ["PATH=/bin"; "FOO=bar"] |} ∧
  run_Action (Lib := Sample.lib) (Hst := Sample.host true (Exited 3))
    (mkContext ["env"] "k") (Sample.disk_of [Sample.FOO]) = Fatal (ExitError 3).
Proof.
  split; [reflexivity|].
  apply (run_exit_status (Lib := Sample.lib) (Hst := Sample.host true (Exited 3))
           (mkContext ["env"] "k") (Sample.disk_of [Sample.FOO]) _ eq_refl).
Defined.

(** C1, as stated, fails: a child that exits with status 2 makes the
    process exit with status 1. *)
Lemma run_exit_status_not_forwarded :
  run_Cmd (Lib := Sample.lib) (Hst := Sample.host true (Exited 2))
    (mkContext ["job"] "k") Sample.fresh =
    Return {| Path := "job"; Args := ["job"]; Env := ["PATH=/bin"] |} ∧
  os_start (Host := Sample.host true (Exited 2))
    {| Path := "job"; Args := ["job"]; Env := ["PATH=/bin"] |} = Exited 2 ∧
  exit_status (run_Action (Lib := Sample.lib) (Hst := Sample.host true (Exited 2))
                 (mkContext ["job"] "k") Sample.fresh) = 1%Z ∧
  exit_status (run_Action (Lib := Sample.lib) (Hst := Sample.host true (Exited 2))
                 (mkContext ["job"] "k") Sample.fresh) ≠ 2%Z.
Proof. split_and!; [reflexivity..|discriminate]. Qed.

Lemma run_conflates_arguments_witness :
  holds Sample.fresh [] ∧
  ∃ cmd1 cmd2,
    run_Cmd (Lib := Sample.lib) (Hst := Sample.host true (Exited 0))
      (mkContext ["echo"; "a, b"] "k") Sample.fresh = Return cmd1 ∧
    run_Cmd (Lib := Sample.lib) (Hst := Sample.host true (Exited 0))
      (mkContext ["echo"; "a"; "b"] "k") Sample.fresh = Return cmd2 ∧
    Args cmd1 = Args cmd2.
Proof.
  assert (Hd : holds Sample.fresh []) by reflexivity.
  split; [done|].
  destruct (run_conflates_arguments (Lib := Sample.lib)
              (Hst := Sample.host true (Exited 0)) Sample.fresh [] "k" Hd)
    as (cmd1 & cmd2 & H1 & H2 & _ & _ & Heq & _).
  by exists cmd1, cmd2.
Defined.

Lemma run_exports_every_secret_witness :
  holds (Sample.disk_of [Sample.FOO]) [Sample.FOO] ∧
  ∃ cmd,
    run_Cmd (Lib := Sample.lib) (Hst := Sample.host false (Exited 0))
      (mkContext ["env"] "k") (Sample.disk_of [Sample.FOO]) = Return cmd ∧
    "FOO=" ∈ Env cmd.
Proof.
  assert (Hd : holds (Sample.disk_of [Sample.FOO]) [Sample.FOO]) by reflexivity.
  split; [done|].
  destruct (run_exports_every_secret (Lib := Sample.lib)
              (Hst := Sample.host false (Exited 0))
              (mkContext ["env"] "k") _ _ Hd)
    as (cmd & Hcmd & Hfail & _ & _).
  exists cmd. split; [done|].
  apply (Hfail Sample.FOO); [by apply list_elem_of_here|by vm_compute].
Defined.

(** C3, as stated, fails: with a KMS that refuses every request, the
    stored secret [FOO] is not left out; the environment list the
    command is started with holds [FOO=]. *)
Lemma run_exports_undecrypted_secret :
  decryptSymmetric (Hst := Sample.host false (Exited 0)) "k" "[bar]" =
    ("", Some (ErrorString "kms: unavailable")) ∧
  run_Cmd (Lib := Sample.lib) (Hst := Sample.host false (Exited 0))
    (mkContext ["env"] "k") (Sample.disk_of [Sample.FOO]) =
    Return {| Path := "env"; Args := ["env"]; Env := ["PATH=/bin"; "FOO="] |} ∧
  "FOO=" ∈ ["PATH=/bin"; "FOO="].
Proof.
  split_and!; [reflexivity..|]. apply list_elem_of_further, list_elem_of_here.
Qed.

(** ** Remarks *)

(** With a tokenizer that splits at blanks, every argument but the last
    reaches the child with a comma appended. *)
Example run_Args_sample :
  run_Args (Lib := Sample.lib) ["ls"; "-l"; "/tmp"] = ["ls,"; "-l,"; "/tmp"].
Proof. reflexivity. Qed.

(** The empty name matches the zero values the loop leaves behind: on a
    store whose record with the empty name is not the last one, [rm] and
    [add] of the empty name panic, and nothing is written. This is why
    the statements above ask for a non-empty name before they promise
    that an operation runs to the end. *)
Example empty_name_panics :
  rmSecret (Sample.disk_of [{| Name := ""; Cyphertext := "c0"; Created := 0%Z |}; Sample.B]) "" =
    Panic (IndexOutOfRange 1 1) ∧
  addSecret (Sample.disk_of [{| Name := ""; Cyphertext := "c0"; Created := 0%Z |}; Sample.B])
    {| Name := ""; Cyphertext := "c9"; Created := 9%Z |} =
    Panic (IndexOutOfRange 1 1).
Proof. split; reflexivity. Qed.

(** * Further properties *)

(** ** The removal loop on any store *)
Section AnyStore.
Implicit Types (l : list Secret) (s : slice) (name : string) (d : Disk).

Lemma lookup_total_beyond (k : list Secret) j :
  length k ≤ j → k !!! j = Secret_zero.
Proof.
  intros Hj. rewrite list_lookup_total_alt, lookup_ge_None_2 by done. done.
Qed.

Lemma kept_slice_of name l : kept name l (slice_of l).
Proof.
  unfold kept, slice_of, elems; simpl. rewrite firstn_all.
  split_and!; [done..| |done|done].
  intros j Hj. by apply lookup_total_beyond.
Qed.

(** One removal at a live position keeps the invariant and shortens the
    slice by one. *)
Lemma remove_at_kept name l index s :
  kept name l s → index < len s → Name (array s !!! index) = name →
  ∃ s', remove_at index s = Return s' ∧ kept name l s' ∧ S (len s') = len s.
Proof.
  intros (Hlen & Hle & Hzero & Hfilter & Hsub) Hindex Hmatch.
  unfold remove_at. destruct (len s) as [|last] eqn:Hn; [lia|].
  rewrite decide_True by lia. eexists; split; [done|]. split; [|done].
  set (arr := array s) in *. set (moved := arr !!! last).
  assert (Hk : take (S last) arr = take last arr ++ [moved]).
  { apply take_S_r. apply list_lookup_lookup_total_lt. lia. }
  assert (Helems : elems s = take last arr ++ [moved]).
  { unfold elems. by rewrite Hn. }
  unfold kept, elems; simpl. rewrite !length_insert.
  split_and!; [done|lia| | |].
  - intros j Hj. rewrite list_lookup_total_insert, length_insert.
    destruct (decide _) as [_|Hne]; [done|].
    rewrite list_lookup_total_insert.
    destruct (decide _) as [[-> _]|_]; [lia|].
    apply Hzero. destruct (decide (j = last)) as [->|]; [|lia].
    exfalso. apply Hne. split; [done|lia].
  - rewrite take_insert_ge by done. rewrite <- Hfilter, Helems.
    destruct (decide (index = last)) as [->|Hne].
    + rewrite take_insert_ge by done.
      rewrite filter_app, filter_cons_False, filter_nil, app_nil_r; [done|].
      intros Hc. by apply Hc.
    + rewrite take_insert_lt by lia.
      assert (Hi : index < length (take last arr)) by (rewrite length_take; lia).
      rewrite insert_take_drop by done.
      rewrite <- (take_drop_middle (take last arr) index (arr !!! index)) at 3.
      2:{ rewrite lookup_take_lt by lia. apply list_lookup_lookup_total_lt. lia. }
      rewrite !filter_app, !filter_cons.
      rewrite (decide_False (P := Name (arr !!! index) ≠ name)) by (intros Hc; by apply Hc).
      rewrite filter_nil.
      destruct (decide (Name moved ≠ name)).
      * rewrite <- app_assoc. apply Permutation_app_head.
        by rewrite (Permutation_app_comm _ [moved]).
      * by rewrite app_nil_r.
  - rewrite take_insert_ge by done. etrans; [|exact Hsub]. rewrite Helems.
    destruct (decide (index = last)) as [->|Hne].
    + rewrite take_insert_ge by done. apply sublist_submseteq, sublist_inserts_r. done.
    + rewrite take_insert_lt by lia.
      assert (Hi : index < length (take last arr)) by (rewrite length_take; lia).
      rewrite insert_take_drop by done.
      rewrite <- (take_drop_middle (take last arr) index (arr !!! index)) at 3.
      2:{ rewrite lookup_take_lt by lia. apply list_lookup_lookup_total_lt. lia. }
      rewrite <- !app_assoc. apply submseteq_app; [done|]. simpl.
      apply submseteq_cons.
      by rewrite (Permutation_app_comm _ [moved]).
Qed.
(** The loop keeps the invariant, never grows the slice, and panics
    only on the empty name. *)
Lemma range_from_kept name l todo index s :
  kept name l s →
  match range_from name todo index s with
  | Return s' => kept name l s' ∧ len s' ≤ len s
  | Fatal _ => False
  | Panic _ => name = ""
  end.
Proof.
  revert index s. induction todo as [|todo IH]; intros index s Hkept; simpl.
  { done. }
  destruct (decide (Name (array s !!! index) = name)) as [Hmatch|_];
    [|apply IH, Hkept].
  destruct (decide (index < len s)) as [Hlt|Hge].
  - destruct (remove_at_kept name l index s Hkept Hlt Hmatch)
      as (s1 & -> & Hkept1 & Hlen1). simpl.
    specialize (IH (S index) s1 Hkept1).
    destruct (range_from name todo (S index) s1); [|done..].
    destruct IH as [? ?]. split; [done|lia].
  - assert (Hname : name = "").
    { destruct Hkept as (_ & _ & Hzero & _).
      rewrite Hzero in Hmatch by lia. done. }
    unfold remove_at. destruct (len s); [done|].
    by rewrite decide_False by lia.
Qed.

(** A match at a live position makes the slice strictly shorter. *)
Lemma range_from_shrinks name l todo index s s' j :
  kept name l s →
  index ≤ j < index + todo → j < len s → Name (array s !!! j) = name →
  range_from name todo index s = Return s' →
  len s' < len s.
Proof.
  revert index s. induction todo as [|todo IH]; intros index s Hkept Hj Hlive Hm;
    simpl; [lia|].
  destruct (decide (Name (array s !!! index) = name)) as [Hmatch|Hno].
  - destruct (remove_at_kept name l index s Hkept ltac:(lia) Hmatch)
      as (s1 & -> & Hkept1 & Hlen1). simpl. intros Hrest.
    pose proof (range_from_kept name l todo (S index) s1 Hkept1) as Hk.
    rewrite Hrest in Hk. destruct Hk as [_ ?]. lia.
  - intros Hrest. apply (IH (S index) s); [done| |done..].
    destruct (decide (j = index)) as [->|]; [done|lia].
Qed.

Lemma remove_named_any name l :
  match remove_named name (slice_of l) with
  | Return s =>
      filter (λ x, Name x ≠ name) (elems s) ≡ₚ filter (λ x, Name x ≠ name) l ∧
      elems s ⊆+ l ∧
      (name ∈ names l → length (elems s) < length l)
  | Fatal _ => False
  | Panic _ => name = ""
  end.
Proof.
  pose proof (range_from_kept name l (length l) 0 (slice_of l)
                (kept_slice_of name l)) as Hk.
  unfold remove_named. simpl.
  destruct (range_from name (length l) 0 (slice_of l)) as [s| |] eqn:Hs;
    [|done..].
  destruct Hk as [(Hlen & Hle & _ & Hfilter & Hsub) _].
  split_and!; [done..|].
  intros Hin. apply list_elem_of_fmap in Hin as (x & -> & Hx).
  apply list_elem_of_lookup_total in Hx as (j & Hj & Hjx).
  assert (len s < length l).
  { apply (range_from_shrinks (Name x) l (length l) 0 (slice_of l) s j);
      [apply kept_slice_of|lia|done| |done].
    simpl. by rewrite Hjx. }
  unfold elems. rewrite length_take. lia.
Qed.
End AnyStore.

(** ** [rm] and [add] on any store *)
Section AnyStoreOperations.
Implicit Types (l : list Secret) (name : string) (d : Disk).

(** X1. On every store, with or without repeated names: when [rm] runs
    to the end, the records of other names are the same as before (up to
    order), no record is invented, and if the name was stored at least
    one record is gone. It runs to the end whenever the name is not empty
    and the document can be written, and it panics on the empty name
    only. *)
Theorem rmSecret_any_store d l name :
  holds d l →
  (∀ d', rmSecret d name = Return d' →
     ∃ l', holds d' l' ∧
       filter (λ x, Name x ≠ name) l' ≡ₚ filter (λ x, Name x ≠ name) l ∧
       l' ⊆+ l ∧
       (name ∈ names l → length l' < length l)) ∧
  (name ≠ "" → write_error d = None → ∃ d', rmSecret d name = Return d') ∧
  (∀ p, rmSecret d name = Panic p → name = "").
Proof.
  intros Hd. pose proof (remove_named_any name l) as Hany.
  unfold rmSecret. rewrite Hd. simpl.
  destruct (remove_named name (slice_of l)) as [s| |]; simpl; [|done|].
  - destruct Hany as (Hfilter & Hsub & Hshrink). split_and!.
    + intros d' (Hd' & _)%read_after_write. eauto 6.
    + intros _ Hw. by apply writeSecrets_total.
    + intros p. unfold writeSecrets. by destruct (ioutil_WriteFile _ _ _).
  - split_and!; [done| |by intros _ _]. intros Hne. by destruct Hne.
Qed.

(** X2. On every store: when the upsert of [add] runs to the end, the new
    record is the last one of the document, and before it come the
    records of other names, unchanged, and no invented record; a record
    of the same name that was stored is gone or replaced. It runs to the
    end whenever the name is not empty and the document can be written,
    and it panics on the empty name only. *)
Theorem addSecret_any_store d l to_add :
  holds d l →
  (∀ d', addSecret d to_add = Return d' →
     ∃ l', holds d' (l' ++ [to_add]) ∧
       filter (λ x, Name x ≠ Name to_add) l' ≡ₚ
         filter (λ x, Name x ≠ Name to_add) l ∧
       l' ⊆+ l ∧
       (Name to_add ∈ names l → length l' < length l)) ∧
  (Name to_add ≠ "" → write_error d = None →
   ∃ d', addSecret d to_add = Return d') ∧
  (∀ p, addSecret d to_add = Panic p → Name to_add = "").
Proof.
  intros Hd. pose proof (remove_named_any (Name to_add) l) as Hany.
  unfold addSecret. rewrite Hd. simpl.
  destruct (remove_named (Name to_add) (slice_of l)) as [s| |]; simpl; [|done|].
  - destruct Hany as (Hfilter & Hsub & Hshrink). split_and!.
    + intros d' (Hd' & _)%read_after_write. eauto 6.
    + intros _ Hw. by apply writeSecrets_total.
    + intros p. unfold writeSecrets. by destruct (ioutil_WriteFile _ _ _).
  - split_and!; [done| |by intros _ _]. intros Hne. by destruct Hne.
Qed.

(** X3. On a store with unique names, [rm] panics exactly when the name
    is empty and the record with the empty name is stored somewhere
    before the last record. *)
Theorem rmSecret_panics_iff d l name :
  holds d l → NoDup (names l) →
  ((∃ p, rmSecret d name = Panic p) ↔
   name = "" ∧ ∃ l1 x l2 y, l = l1 ++ x :: l2 ++ [y] ∧ Name x = "").
Proof.
  intros Hd Hnd. unfold rmSecret. rewrite Hd. simpl.
  assert (Hwrite : ∀ data p, writeSecrets d data ≠ Panic p).
  { intros data p. unfold writeSecrets. by destruct (ioutil_WriteFile _ _ _). }
  split.
  - intros (p & Hp).
    destruct (decide (name ∈ names l)) as [Hin|Hnotin].
    + destruct (names_split name l Hnd Hin) as (l1 & x & l2 & -> & Hx & Hl1 & Hl2).
      destruct (decide (l2 = [])) as [->|Hne].
      * rewrite remove_named_last in Hp by done. simpl in Hp.
        by apply Hwrite in Hp.
      * destruct (exists_last Hne) as (l2' & y & ->).
        apply Forall_app in Hl2 as [Hl2 _].
        rewrite (remove_named_middle name l1 x l2' y Hx Hl1 Hl2) in Hp.
        destruct (decide (name = "")) as [->|]; [|by apply Hwrite in Hp].
        split; [done|]. by exists l1, x, l2', y.
    + apply names_absent in Hnotin.
      rewrite remove_named_absent in Hp by done. by apply Hwrite in Hp.
  - intros (-> & l1 & x & l2 & y & -> & Hx).
    assert (Hin : "" ∈ names (l1 ++ x :: l2 ++ [y])).
    { unfold names. rewrite fmap_app, fmap_cons, <- Hx.
      apply elem_of_app; right. left. }
    destruct (names_split "" _ Hnd Hin) as (k1 & z & k2 & Heq & Hz & Hk1 & Hk2).
    assert (k2 ≠ []) as Hne.
    { intros ->.
      assert (Hlast : last (l1 ++ x :: l2 ++ [y]) = Some z)
        by (rewrite Heq; apply last_snoc).
      rewrite app_comm_cons, app_assoc, last_snoc in Hlast.
      injection Hlast as ->.
      unfold names in Hnd. rewrite fmap_app, fmap_cons, fmap_app in Hnd.
      apply NoDup_app in Hnd as (_ & _ & Hnd).
      apply NoDup_cons in Hnd as [Hnotin _].
      apply Hnotin. rewrite Hx, <- Hz. apply elem_of_app; right.
      simpl. left. }
    destruct (exists_last Hne) as (k2' & w & ->).
    apply Forall_app in Hk2 as [Hk2 _].
    rewrite Heq, (remove_named_middle "" k1 z k2' w Hz Hk1 Hk2).
    rewrite decide_True by done. simpl. eauto.
Qed.
End AnyStoreOperations.

Lemma rmSecret_any_store_witness :
  holds (Sample.disk_of [Sample.A1; Sample.B; Sample.A2]) [Sample.A1; Sample.B; Sample.A2] ∧
  ∃ d' l', rmSecret (Sample.disk_of [Sample.A1; Sample.B; Sample.A2]) "A" = Return d' ∧
           holds d' l' ∧ Sample.B ∈ l' ∧ length l' < 3.
Proof.
  assert (Hd : holds (Sample.disk_of [Sample.A1; Sample.B; Sample.A2])
                 [Sample.A1; Sample.B; Sample.A2]) by reflexivity.
  split; [done|].
  destruct (rmSecret_any_store _ _ "A" Hd) as (Hret & Htot & _).
  destruct Htot as (d' & Hd'); [done..|].
  destruct (Hret d' Hd') as (l' & Hl' & Hfilter & _ & Hshrink).
  exists d', l'. split_and!; [done..| |].
  - assert (Hin : Sample.B ∈ filter (λ x, Name x ≠ "A") l').
    { rewrite Hfilter. vm_compute. left. }
    by apply list_elem_of_filter in Hin as [_ ?].
  - apply Hshrink. vm_compute. left.
Defined.

Lemma addSecret_any_store_witness :
  holds (Sample.disk_of [Sample.A1; Sample.B; Sample.A2]) [Sample.A1; Sample.B; Sample.A2] ∧
  ∃ d' l', addSecret (Sample.disk_of [Sample.A1; Sample.B; Sample.A2])
             {| Name := "A"; Cyphertext := "c9"; Created := 9%Z |} = Return d' ∧
           holds d' (l' ++ [{| Name := "A"; Cyphertext := "c9"; Created := 9%Z |}]) ∧
           Sample.B ∈ l' ∧ length l' < 3.
Proof.
  assert (Hd : holds (Sample.disk_of [Sample.A1; Sample.B; Sample.A2])
                 [Sample.A1; Sample.B; Sample.A2]) by reflexivity.
  split; [done|].
  destruct (addSecret_any_store _ _
              {| Name := "A"; Cyphertext := "c9"; Created := 9%Z |} Hd)
    as (Hret & Htot & _).
  destruct Htot as (d' & Hd'); [done..|].
  destruct (Hret d' Hd') as (l' & Hl' & Hfilter & _ & Hshrink).
  exists d', l'. split_and!; [done..| |].
  - assert (Hin : Sample.B ∈ filter (λ x, Name x ≠ "A") l').
    { rewrite Hfilter. vm_compute. left. }
    by apply list_elem_of_filter in Hin as [_ ?].
  - apply Hshrink. vm_compute. left.
Defined.

Lemma rmSecret_panics_iff_witness :
  holds (Sample.disk_of [{| Name := ""; Cyphertext := "c0"; Created := 0%Z |}; Sample.B])
    [{| Name := ""; Cyphertext := "c0"; Created := 0%Z |}; Sample.B] ∧
  ∃ p, rmSecret (Sample.disk_of [{| Name := ""; Cyphertext := "c0"; Created := 0%Z |}; Sample.B]) "" =
       Panic p.
Proof.
  split; [reflexivity|].
  apply (rmSecret_panics_iff
           (Sample.disk_of [{| Name := ""; Cyphertext := "c0"; Created := 0%Z |}; Sample.B])
           [{| Name := ""; Cyphertext := "c0"; Created := 0%Z |}; Sample.B] "");
    [reflexivity| |].
  - apply (bool_decide_unpack _). vm_compute. exact I.
  - split; [done|].
    by exists [], {| Name := ""; Cyphertext := "c0"; Created := 0%Z |}, [], Sample.B.
Defined.

(** ** Operations in sequence *)
Section Composition.
Context {Lib : Libraries}.
Implicit Types (l : list Secret) (name : string) (d : Disk).

(** X6. Adding a name that is not stored and then removing it, under any
    spelling with the same upper-casing, gives back the records as they
    were, in the same order. Both invocations run to the end when the
    encryption succeeds and the document can be written. *)
Theorem add_then_rm_restores (H1 : Host) d l name v key now c :
  holds d l →
  Forall (λ x, Name x ≠ strings_ToUpper name) l →
  strings_ToUpper (First (c_Args c)) = strings_ToUpper name →
  (∀ d1 d2,
     add_Action (Hst := H1) (mkContext [name; v] key) now d = Return d1 →
     rm_Action c d1 = Return d2 →
     holds d2 l) ∧
  (write_error d = None → (encryptSymmetric (Hst := H1) key v).2 = None →
   ∃ d1 d2,
     add_Action (Hst := H1) (mkContext [name; v] key) now d = Return d1 ∧
     rm_Action c d1 = Return d2).
Proof.
  intros Hd Habsent Hsame.
  assert (Hstep : ∀ r d1, Name r = strings_ToUpper name →
            addSecret d r = Return d1 →
            holds d1 (l ++ [r]) ∧ write_error d1 = None ∧
            ∀ d2, rm_Action c d1 = Return d2 → holds d2 l).
  { intros r d1 Hr Hadd.
    destruct (addSecret_inv d r d1 l Hd Hadd) as (s & Hs & Hw).
    rewrite Hr, remove_named_absent in Hs by done. injection Hs as <-.
    unfold append, elems, slice_of in Hw; simpl in Hw. rewrite firstn_all in Hw.
    apply read_after_write in Hw as (Hd1 & Hw1 & _).
    split_and!; [done..|]. intros d2 Hrm. unfold rm_Action in Hrm.
    rewrite Hsame in Hrm.
    destruct (rmSecret_inv d1 _ d2 _ Hd1 Hrm) as (s2 & Hs2 & Hw2).
    rewrite remove_named_last in Hs2 by done. injection Hs2 as <-.
    rewrite elems_zero_tail in Hw2.
    by apply read_after_write in Hw2 as (? & _). }
  split.
  - intros d1 d2 (cypher & _ & Hadd)%add_Action_inv Hrm.
    eapply Hstep in Hadd as (_ & _ & Hback); [|reflexivity]. by apply Hback.
  - intros Hw Henc.
    assert (∃ d1, add_Action (Hst := H1) (mkContext [name; v] key) now d = Return d1)
      as (d1 & Hadd1).
    { unfold add_Action; simpl.
      destruct (encryptSymmetric key v) as [cypher [e|]]; [done|].
      unfold addSecret. rewrite Hd; simpl.
      rewrite remove_named_absent by done; simpl. by apply writeSecrets_total. }
    exists d1. pose proof Hadd1 as (cypher & _ & Hadd)%add_Action_inv.
    eapply Hstep in Hadd as (Hd1 & Hw1 & _); [|reflexivity].
    assert (∃ d2, rm_Action c d1 = Return d2) as (d2 & Hrm); [|by exists d2].
    unfold rm_Action, rmSecret. rewrite Hsame, Hd1; simpl.
    rewrite remove_named_last by done; simpl. by apply writeSecrets_total.
Qed.

(** X7. A secret that was added reaches the child: after [add name v],
    whatever the store held, when base64 decoding undoes the encoding of
    the ciphertext and the KMS of the [run] invocation decrypts that
    ciphertext to [v], the last entry of the environment [run] builds is
    the upper-cased name, [=], and [v]. *)
Theorem add_then_run_exports (H1 H2 : Host) d l name v key now c cypher d1 :
  holds d l →
  encryptSymmetric (Hst := H1) key v = (cypher, None) →
  add_Action (Hst := H1) (mkContext [name; v] key) now d = Return d1 →
  (b64_DecodeString (b64_EncodeToString cypher)).1 = cypher →
  (decryptSymmetric (Hst := H2) (c_key c) cypher).1 = v →
  ∃ cmd,
    run_Cmd (Hst := H2) c d1 = Return cmd ∧
    last (Env cmd) = Some (strings_ToUpper name +:+ "=" +:+ v).
Proof.
  intros Hd Henc (cypher' & Henc' & Hadd)%add_Action_inv Hb64 Hdec.
  rewrite Henc in Henc'. injection Henc' as <-.
  set (r := {| Name := strings_ToUpper name;
               Cyphertext := b64_EncodeToString cypher; Created := now |}) in *.
  destruct (addSecret_inv d r d1 l Hd Hadd) as (s & _ & Hw).
  apply read_after_write in Hw as (Hd1 & _). unfold append in Hd1.
  eexists. split; [by apply run_Cmd_holds|]. simpl.
  rewrite fmap_app, app_assoc. simpl. rewrite last_snoc. f_equal.
  unfold skrt; simpl.
  destruct (b64_DecodeString (b64_EncodeToString cypher)) as [decoded ?].
  simpl in Hb64. subst decoded.
  destruct (decryptSymmetric (c_key c) cypher) as [plain ?].
  simpl in Hdec. by subst plain.
Qed.

(** X9. Removing a name that is not stored succeeds when the document
    can be written: the records stay as they are, and a document is on
    disk afterwards even if there was none before. *)
Theorem rm_Action_absent c d l :
  holds d l →
  Forall (λ x, Name x ≠ strings_ToUpper (First (c_Args c))) l →
  write_error d = None →
  ∃ d' f, rm_Action c d = Return d' ∧ holds d' l ∧
          scuttle_json d' = Some f ∧ content f = Records l.
Proof.
  intros Hd Habsent Hw. unfold rm_Action, rmSecret. rewrite Hd; simpl.
  rewrite remove_named_absent by done; simpl.
  unfold elems, slice_of; simpl. rewrite firstn_all.
  unfold writeSecrets, ioutil_WriteFile. rewrite Hw.
  eexists _, _. split; [reflexivity|]. split; [|split; [reflexivity|]].
  - unfold holds, readSecrets, ioutil_ReadFile. cbn [scuttle_json content].
    by destruct (scuttle_json d).
  - by destruct (scuttle_json d).
Qed.

(** X10. [add] gives up before it looks at the document: with fewer than
    two arguments it ends with the usage message, and with two or more it
    ends with the KMS error when the client cannot be made or the
    encryption is refused, whatever the document holds. *)
Theorem add_Action_fails_early (Hst : Host) c now :
  (length (c_Args c) ≤ 1 →
   ∀ d, add_Action c now d = Fatal (ErrorString "Usage: sctl add KEY VALUE")) ∧
  (1 < length (c_Args c) →
   ∀ e,
     cloudkms_NewKeyManagementClient = Some e ∨
     (cloudkms_NewKeyManagementClient = None ∧
      client_Encrypt (c_key c) (c_Args c !!! 1) = inl e) →
     ∀ d, add_Action c now d = Fatal e).
Proof.
  split.
  - intros Hlen d. unfold add_Action. by rewrite decide_True.
  - intros Hlen e Hkms d. unfold add_Action, encryptSymmetric.
    rewrite decide_False by lia.
    destruct Hkms as [->|[-> ->]]; done.
Qed.
End Composition.

Section Listing.
Implicit Types (l : list Secret) (d : Disk).

#[local] Instance leb_total : Total (λ x y, Is_true (String.leb x y)).
Proof.
  intros x y. destruct (String.leb_total x y) as [H|H]; rewrite H; [by left|by right].
Qed.

(** X8. [list] prints the stored names, each as often as it is stored,
    in ascending order. *)
Theorem list_Action_sorted d l :
  holds d l →
  ∃ out, list_Action d = Return out ∧
         out ≡ₚ names l ∧
         Sorted (λ x y, Is_true (String.leb x y)) out.
Proof.
  intros Hd. exists (sort_Strings (names l)).
  split; [by apply list_Action_holds|]. split.
  - apply sort_Strings_Permutation.
  - apply Sorted_merge_sort, _.
Qed.
End Listing.

Lemma add_then_rm_restores_witness :
  holds (Sample.disk_of [Sample.B; Sample.C]) [Sample.B; Sample.C] ∧
  ∃ d1 d2,
    add_Action (Lib := Sample.lib) (Hst := Sample.host true (Exited 0))
      (mkContext ["db_pass"; "one"] "k") 1%Z (Sample.disk_of [Sample.B; Sample.C]) =
      Return d1 ∧
    rm_Action (Lib := Sample.lib) (mkContext ["Db_Pass"] "") d1 = Return d2 ∧
    holds d2 [Sample.B; Sample.C].
Proof.
  assert (Hd : holds (Sample.disk_of [Sample.B; Sample.C]) [Sample.B; Sample.C])
    by reflexivity.
  split; [done|].
  destruct (add_then_rm_restores (Lib := Sample.lib) (Sample.host true (Exited 0))
              (Sample.disk_of [Sample.B; Sample.C]) [Sample.B; Sample.C]
              "db_pass" "one" "k" 1%Z (mkContext ["Db_Pass"] "") Hd)
    as [Hret Htot].
  - repeat constructor; by vm_compute.
  - reflexivity.
  - destruct Htot as (d1 & d2 & Hadd & Hrm); [reflexivity..|].
    exists d1, d2. split_and!; [done..|]. by apply (Hret d1 d2).
Defined.

Lemma add_then_run_exports_witness :
  ∃ d1 cmd,
    add_Action (Lib := Sample.lib) (Hst := Sample.host true (Exited 0))
      (mkContext ["foo"; "bar"] "k") 1%Z (Sample.disk_of [Sample.B]) = Return d1 ∧
    run_Cmd (Lib := Sample.lib) (Hst := Sample.host true (Exited 0))
      (mkContext ["env"] "k") d1 = Return cmd ∧
    last (Env cmd) = Some "FOO=bar".
Proof.
  eexists. 
  destruct (add_then_run_exports (Lib := Sample.lib)
              (Sample.host true (Exited 0)) (Sample.host true (Exited 0))
              (Sample.disk_of [Sample.B]) [Sample.B] "foo" "bar" "k" 1%Z
              (mkContext ["env"] "k") "[bar]" _ eq_refl eq_refl eq_refl eq_refl eq_refl)
    as (cmd & Hcmd & Hlast).
  exists cmd. split_and!; [reflexivity|exact Hcmd|exact Hlast].
Defined.

Lemma rm_Action_absent_witness :
  holds Sample.fresh [] ∧
  ∃ d' f, rm_Action (Lib := Sample.lib) (mkContext ["foo"] "") Sample.fresh = Return d' ∧
          scuttle_json d' = Some f ∧ content f = Records [].
Proof.
  split; [reflexivity|].
  destruct (rm_Action_absent (Lib := Sample.lib) (mkContext ["foo"] "") Sample.fresh [])
    as (d' & f & Hrm & _ & Hf & Hc); [reflexivity|constructor|reflexivity|].
  by exists d', f.
Defined.

Lemma list_Action_sorted_witness :
  holds (Sample.disk_of [Sample.C; Sample.A1; Sample.B]) [Sample.C; Sample.A1; Sample.B] ∧
  ∃ out, list_Action (Sample.disk_of [Sample.C; Sample.A1; Sample.B]) = Return out ∧
         out ≡ₚ ["C"; "A"; "B"].
Proof.
  split; [reflexivity|].
  destruct (list_Action_sorted (Sample.disk_of [Sample.C; Sample.A1; Sample.B])
              [Sample.C; Sample.A1; Sample.B] eq_refl) as (out & Hout & Hperm & _).
  by exists out.
Defined.

Lemma rmSecret_twice_unique_witness :
  holds (Sample.disk_of [Sample.A1; Sample.B; Sample.C]) [Sample.A1; Sample.B; Sample.C] ∧
  rmSecret (Sample.disk_of [Sample.A1; Sample.B; Sample.C]) "A" =
    Return (Sample.disk_of [Sample.C; Sample.B]) ∧
  rmSecret (Sample.disk_of [Sample.C; Sample.B]) "A" =
    Return (Sample.disk_of [Sample.C; Sample.B]).
Proof.
  split; [reflexivity|]. split; [reflexivity|].
  apply (rmSecret_twice_unique (Sample.disk_of [Sample.A1; Sample.B; Sample.C])
           [Sample.A1; Sample.B; Sample.C] "A"); [reflexivity| |reflexivity].
  apply (bool_decide_unpack _). vm_compute. exact I.
Defined.

Lemma reachable_unique_witness :
  reachable (Lib := Sample.lib) (Sample.disk_of [Sample.FOO]) ∧
  ∃ l, holds (Sample.disk_of [Sample.FOO]) l ∧ NoDup (names l).
Proof.
  assert (Hreach : reachable (Lib := Sample.lib) (Sample.disk_of [Sample.FOO])).
  { apply (reachable_add (Lib := Sample.lib) (Sample.host true (Exited 0))
             Sample.fresh (mkContext ["foo"; "bar"] "k") 5%Z).
    - by apply reachable_fresh.
    - reflexivity. }
  split; [done|]. by apply (reachable_unique (Lib := Sample.lib)).
Defined.

(** ** What [list] shows after [add] and [rm] *)
Section Listed.
Context {Lib : Libraries}.
Implicit Types (l : list Secret) (name : string) (d : Disk).

Lemma names_filter name l :
  names (filter (λ x, Name x ≠ name) l) = filter (λ k, k ≠ name) (names l).
Proof.
  induction l as [|x l IH]; [done|]. unfold names in *. rewrite fmap_cons.
  destruct (decide (Name x = name)) as [Heq|Hne].
  - rewrite !filter_cons_False by (intros Hc; by apply Hc). done.
  - rewrite !filter_cons_True by done. rewrite fmap_cons. by rewrite IH.
Qed.

(** X11. On a store with unique names, after [rm] of a name has run to
    the end, [list] prints the names it printed before except the
    upper-cased name removed, which it no longer prints. *)
Theorem rm_then_list c d l d' :
  holds d l → NoDup (names l) →
  rm_Action c d = Return d' →
  ∃ out, list_Action d' = Return out ∧
         out ≡ₚ filter (λ k, k ≠ strings_ToUpper (First (c_Args c))) (names l) ∧
         strings_ToUpper (First (c_Args c)) ∉ out.
Proof.
  intros Hd Hnd Hrm. unfold rm_Action in Hrm.
  destruct (rmSecret_unique d l _ d' Hd Hnd Hrm) as (l' & Hrel & Hd' & _).
  exists (sort_Strings (names l')).
  split; [by apply list_Action_holds|].
  assert (Hperm : sort_Strings (names l') ≡ₚ
            filter (λ k, k ≠ strings_ToUpper (First (c_Args c))) (names l)).
  { rewrite sort_Strings_Permutation, <- names_filter.
    unfold names. by rewrite (relocated_Permutation _ _ _ Hrel). }
  split; [done|]. rewrite Hperm. intros Hin.
  apply list_elem_of_filter in Hin as [Hne _]. by apply Hne.
Qed.

(** X12. On a store with unique names, after [add] of a name has run to
    the end, [list] prints the upper-cased name once, together with the
    names it printed before other than that one. *)
Theorem add_then_list (Hst : Host) name v rest key now d l d' :
  holds d l → NoDup (names l) →
  add_Action (mkContext (name :: v :: rest) key) now d = Return d' →
  ∃ out, list_Action d' = Return out ∧
         out ≡ₚ strings_ToUpper name ::
                filter (λ k, k ≠ strings_ToUpper name) (names l).
Proof.
  intros Hd Hnd (cypher & _ & Hadd)%add_Action_inv.
  destruct (addSecret_unique d l _ d' Hd Hnd Hadd) as (l' & Hrel & Hd' & _).
  simpl in Hrel.
  eexists. split; [by apply list_Action_holds|].
  rewrite sort_Strings_Permutation, <- names_filter.
  unfold names. rewrite fmap_app. simpl.
  rewrite <- Permutation_cons_append. apply Permutation_skip.
  by rewrite (relocated_Permutation _ _ _ Hrel).
Qed.
End Listed.

Lemma rm_then_list_witness :
  holds (Sample.disk_of [Sample.A1; Sample.B; Sample.C]) [Sample.A1; Sample.B; Sample.C] ∧
  ∃ out, list_Action (Sample.disk_of [Sample.C; Sample.B]) = Return out ∧
         "A" ∉ out.
Proof.
  split; [reflexivity|].
  destruct (rm_then_list (Lib := Sample.lib) (mkContext ["a"] "")
              (Sample.disk_of [Sample.A1; Sample.B; Sample.C])
              [Sample.A1; Sample.B; Sample.C]
              (Sample.disk_of [Sample.C; Sample.B]))
    as (out & Hout & _ & Hnotin); [reflexivity| |reflexivity|].
  - apply (bool_decide_unpack _). vm_compute. exact I.
  - by exists out.
Defined.

Lemma add_then_list_witness :
  holds (Sample.disk_of [Sample.B]) [Sample.B] ∧
  ∃ d' out,
    add_Action (Lib := Sample.lib) (Hst := Sample.host true (Exited 0))
      (mkContext ["foo"; "bar"] "k") 5%Z (Sample.disk_of [Sample.B]) = Return d' ∧
    list_Action d' = Return out ∧ out ≡ₚ ["FOO"; "B"].
Proof.
  split; [reflexivity|].
  exists (Sample.disk_of [Sample.B; Sample.FOO]).
  destruct (add_then_list (Lib := Sample.lib) (Sample.host true (Exited 0))
              "foo" "bar" [] "k" 5%Z (Sample.disk_of [Sample.B]) [Sample.B]
              (Sample.disk_of [Sample.B; Sample.FOO]))
    as (out & Hout & Hperm); [reflexivity| |reflexivity|].
  - apply (bool_decide_unpack _). vm_compute. exact I.
  - exists out. split_and!; [reflexivity|done|]. rewrite Hperm. reflexivity.
Defined.
